(** * The Boltzmann wealth model of the Mesa tutorials

    A shallow embedding of the code cell shared by the tutorials
    [docs/tutorials/8_comparing_scenarios.ipynb] and
    [docs/tutorials/2_collecting_data.ipynb]: the model reporter
    [compute_gini], the agent class [MoneyAgent] with its methods [move]
    and [give_money], and the model class [MoneyModel] with its constructor
    and its [step] method.

    Number model.  Python integers are unbounded and are embedded as [Z].
    The true division [a / b] of two Python integers raises
    [ZeroDivisionError] when [b] is zero and otherwise yields the quotient
    as a float.  Two readings of the floats are given.  In the first the
    floats of the score are the exact rationals [Q] they approximate,
    compared with [Qeq] (written [==]); it carries the statements that
    rounding does not disturb.  The second, [Binary64], is the arithmetic
    of CPython itself: the quotient rounded once to IEEE 754 binary64, or
    [OverflowError] when it is too large for a float; it carries the
    statements on which rounding bears.

    Object model.  The model object owns the list of its agents; an agent
    is identified by its position in that list, so [a is not self] is an
    inequality of positions and an attribute assignment is an update of the
    list in place.  Python code that reads or writes the model is embedded
    in a state-and-exception monad over the model record; an exception
    keeps the writes made before it was raised, as in Python. *)

From Stdlib Require Import ZArith QArith Qabs Lia Lqa.
From Stdlib Require Import Floats.SpecFloat.
From stdpp Require Import base decidable option list numbers sorting.

Open Scope Z_scope.

(** ** Exceptions and the monad of model code *)

Inductive exn : Set :=
| ZeroDivisionError
| OverflowError
| IndexError
| RuntimeError
| FrameworkError.

Inductive Result (A : Type) : Type :=
| Ok (a : A)
| Raise (e : exn).
Arguments Ok {A} a.
Arguments Raise {A} e.

Definition M (St A : Type) : Type := St -> Result A * St.

Definition ret {St A} (a : A) : M St A := fun s => (Ok a, s).

Definition raise {St A} (e : exn) : M St A := fun s => (Raise e, s).

Definition bind {St A B} (c : M St A) (k : A -> M St B) : M St B :=
  fun s =>
    match c s with
    | (Ok a, s') => k a s'
    | (Raise e, s') => (Raise e, s')
    end.

Definition gets {St A} (f : St -> A) : M St A := fun s => (Ok (f s), s).

Definition modify {St} (f : St -> St) : M St unit := fun s => (Ok tt, f s).

Definition lift {St A} (r : Result A) : M St A := fun s => (r, s).

(** [try: c except Exception as exc: raise e from exc] *)
Definition reraise {St A} (e : exn) (c : M St A) : M St A :=
  fun s =>
    match c s with
    | (Ok a, s') => (Ok a, s')
    | (Raise _, s') => (Raise e, s')
    end.

(** The value (or exception) and the final state of a run. *)
Definition eval {St A} (c : M St A) (s : St) : Result A := fst (c s).
Definition exec {St A} (c : M St A) (s : St) : St := snd (c s).

(** The monad is registered with stdpp's classes, which gives the
    notations [x ← c; k] and [c ;; k]. *)
Global Instance M_ret St : MRet (M St) := fun A a => ret a.
Global Instance M_bind St : MBind (M St) := fun A B k c => bind c k.

(** [for x in l: body(x)] *)
Fixpoint for_each {St A} (l : list A) (body : A -> M St unit) : M St unit :=
  match l with
  | [] => ret tt
  | x :: l' => bind (body x) (fun _ => for_each l' body)
  end.

(** [for _ in range(k): body] *)
Fixpoint repeat_do {St} (k : nat) (body : M St unit) : M St unit :=
  match k with
  | O => ret tt
  | S k' => bind body (fun _ => repeat_do k' body)
  end.

(** ** Python built-ins used by the cell *)

(** [sum(l)] on integers. *)
Definition sum (l : list Z) : Z := foldr Z.add 0 l.

(** [sorted(l)] on integers: the ascending rearrangement of [l]. *)
Definition sorted (l : list Z) : list Z := merge_sort Z.le l.

(** [enumerate(l)], counting from [i]. *)
Fixpoint enumerate_from (i : Z) (l : list Z) : list (Z * Z) :=
  match l with
  | [] => []
  | x :: l' => (i, x) :: enumerate_from (i + 1) l'
  end.

Definition enumerate (l : list Z) : list (Z * Z) := enumerate_from 0 l.

(** [a / b] on integers, in the rational reading: the quotient itself.
    Its rounding, and the [OverflowError] of a quotient too large for a
    float, are in [Binary64.truediv] below. *)
Definition truediv (a b : Z) : Result Q :=
  if decide (b = 0) then Raise ZeroDivisionError
  else Ok (inject_Z a / inject_Z b)%Q.

(** ** The data model *)

(** A cell of the grid, named by its coordinate. *)
Definition Cell : Type := Z * Z.

(** [MoneyAgent]: the attributes set by [__init__]. *)
Record MoneyAgent : Type := mkAgent {
  cell : Cell;
  wealth : Z;
  steps_not_given : Z
}.

(** What the data collector has stored: one Gini value per collection, and
    per collection the [Wealth] and [Steps_not_given] of every agent. *)
Record DataCollector : Type := mkCollector {
  model_vars : list Q;
  agent_vars : list (list (Z * Z))
}.

(** [MoneyModel]: the attributes set by [__init__]; [random] is the stream
    of draws left in the model's generator. *)
Record MoneyModel : Type := mkModel {
  num_agents : Z;
  agents : list MoneyAgent;
  random : list nat;
  datacollector : DataCollector;
  running : bool
}.

Definition set_agents (l : list MoneyAgent) (m : MoneyModel) : MoneyModel :=
  mkModel (num_agents m) l (random m) (datacollector m) (running m).

Definition set_random (t : list nat) (m : MoneyModel) : MoneyModel :=
  mkModel (num_agents m) (agents m) t (datacollector m) (running m).

Definition set_datacollector (d : DataCollector) (m : MoneyModel) : MoneyModel :=
  mkModel (num_agents m) (agents m) (random m) d (running m).

Definition set_cell (c : Cell) (a : MoneyAgent) : MoneyAgent :=
  mkAgent c (wealth a) (steps_not_given a).

Definition set_wealth (w : Z) (a : MoneyAgent) : MoneyAgent :=
  mkAgent (cell a) w (steps_not_given a).

Definition set_steps_not_given (k : Z) (a : MoneyAgent) : MoneyAgent :=
  mkAgent (cell a) (wealth a) k.

(** The snapshot of wealth values [[agent.wealth for agent in model.agents]]. *)
Definition wealths (m : MoneyModel) : list Z := map wealth (agents m).

Definition total_wealth (m : MoneyModel) : Z := sum (wealths m).

(** ** [compute_gini] *)

(** The numerator of [B]: [sum(xi * (n - i) for i, xi in enumerate(x))]. *)
Definition weighted_sum (n : Z) (x : list Z) : Z :=
  sum (map (fun p => snd p * (n - fst p)) (enumerate x)).

(** [B = sum(xi * (n - i) for i, xi in enumerate(x)) / (n * sum(x))] *)
Definition gini_B (n : Z) (x : list Z) : Result Q :=
  truediv (weighted_sum n x) (n * sum x).

Definition compute_gini : M MoneyModel Q :=
  agent_wealths ← gets (fun model => map wealth (agents model));
  let x := sorted agent_wealths in
  n ← gets num_agents;
  B ← lift (gini_B n x);
  inv_n ← lift (truediv 1 n);
  ret (1 + inv_n - 2 * B)%Q.

(** ** [compute_gini] in binary64

    The same function with the floats of CPython in place of the
    rationals: IEEE 754 binary64, rounding to nearest with ties to even, as
    the operations of [SpecFloat] define it. *)
Module Binary64.

Definition prec : Z := 53.
Definition emax : Z := 1024.

(** [float(z)], used for the literals [1] and [2] of the score. *)
Definition of_int (z : Z) : spec_float := binary_normalize prec emax z 0 false.

(** The quotient [a / b] of two integers, [b <> 0], rounded once: the
    quotient with its remainder is taken to full precision and then
    rounded, whatever the size of [a] and [b].  The result depends on the
    fraction only, and it is computed on the fraction in lowest terms.  A
    quotient too large for a float comes out as an infinity. *)
Definition round_quotient (a b : Z) : spec_float :=
  let s := xorb (a <? 0) (b <? 0) in
  let p := Z.abs a in
  let d := Z.abs b in
  let g := Z.gcd p d in
  match p / g with
  | 0 => S754_zero s
  | p' =>
      let '(mz, ez, lz) := SFdiv_core_binary prec emax p' 0 (d / g) 0 in
      binary_round_aux prec emax s mz ez lz
  end.

(** [a / b] on integers: [ZeroDivisionError] on a zero divisor,
    [OverflowError] when the quotient is too large for a float. *)
Definition truediv (a b : Z) : Result spec_float :=
  if decide (b = 0) then Raise ZeroDivisionError
  else
    match round_quotient a b with
    | S754_infinity _ => Raise OverflowError
    | f => Ok f
    end.

(** The last two lines of [compute_gini], given [n] and the sorted list. *)
Definition score_of (n : Z) (x : list Z) : Result spec_float :=
  match truediv (weighted_sum n x) (n * sum x) with
  | Ok B =>
      match truediv 1 n with
      | Ok inv_n =>
          Ok (SFsub prec emax (SFadd prec emax (of_int 1) inv_n)
                              (SFmul prec emax (of_int 2) B))
      | Raise e => Raise e
      end
  | Raise e => Raise e
  end.

Definition compute_gini : M MoneyModel spec_float :=
  agent_wealths ← gets (fun model => map wealth (agents model));
  let x := sorted agent_wealths in
  n ← gets num_agents;
  B ← lift (truediv (weighted_sum n x) (n * sum x));
  inv_n ← lift (truediv 1 n);
  ret (SFsub prec emax (SFadd prec emax (of_int 1) inv_n)
                       (SFmul prec emax (of_int 2) B)).

(** The rational that a finite float stands for. *)
Definition to_Q (f : spec_float) : option Q :=
  match f with
  | S754_zero _ => Some 0%Q
  | S754_finite s m e =>
      Some (inject_Z (if s then Z.neg m else Z.pos m) * (2 ^ e))%Q
  | _ => None
  end.



End Binary64.

(** ** The generator of the model *)

(** One draw of [model.random]; a generator that has run dry yields 0. *)
Definition random_draw : M MoneyModel nat :=
  fun m =>
    match random m with
    | [] => (Ok O, m)
    | r :: t => (Ok r, set_random t m)
    end.

(** [random.choice(seq)]: [seq[randbelow(len(seq))]]. *)
Definition random_choice {A} (seq : list A) : M MoneyModel A :=
  r ← random_draw;
  match seq !! (r mod length seq)%nat with
  | Some x => ret x
  | None => raise IndexError
  end.

(** ** Attribute access on the agent at a position *)

Definition get_agent (i : nat) : M MoneyModel MoneyAgent :=
  l ← gets agents;
  match l !! i with
  | Some a => ret a
  | None => raise FrameworkError
  end.

(** [agent.attr = f(agent)], a read followed by a write in place. *)
Definition update_agent (i : nat) (f : MoneyAgent -> MoneyAgent) : M MoneyModel unit :=
  a ← get_agent i;
  modify (fun m => set_agents (<[i := f a]> (agents m)) m).

(** [cell.agents]: the positions of the agents that stand on [c], in
    ascending order.  The order in which the framework lists them decides
    only which of them a given draw of [random.choice] selects. *)
Definition cell_agents (c : Cell) (l : list MoneyAgent) : list nat :=
  filter (fun j => cell <$> l !! j = Some c) (seq 0 (length l)).

(** ** [MoneyAgent] *)

Definition MoneyAgent_init (c : Cell) : MoneyAgent :=
  {| cell := c; wealth := 1; steps_not_given := 0 |}.

Definition give_money (self : nat) : M MoneyModel unit :=
  me ← get_agent self;
  here ← gets (fun m => cell_agents (cell me) (agents m));
  let cellmates := filter (fun a => a ≠ self) here in
  if bool_decide (0 < length cellmates)%nat && bool_decide (0 < wealth me) then
    other ← random_choice cellmates;
    update_agent other (fun a => set_wealth (wealth a + 1) a);;
    update_agent self (fun a => set_wealth (wealth a - 1) a);;
    update_agent self (set_steps_not_given 0)
  else
    update_agent self (fun a => set_steps_not_given (steps_not_given a + 1) a).

(** The [give_money] of [2_collecting_data.ipynb], which keeps no count of
    the steps without a gift: [if self.wealth > 0 and cellmates:]. *)
Definition give_money_plain (self : nat) : M MoneyModel unit :=
  me ← get_agent self;
  here ← gets (fun m => cell_agents (cell me) (agents m));
  let cellmates := filter (fun a => a ≠ self) here in
  if bool_decide (0 < wealth me) && bool_decide (cellmates ≠ []) then
    other_agent ← random_choice cellmates;
    update_agent other_agent (fun a => set_wealth (wealth a + 1) a);;
    update_agent self (fun a => set_wealth (wealth a - 1) a)
  else ret tt.

(** ** [MoneyModel] *)

(** [grid.all_cells.cells] of a grid of the given dimensions. *)
Definition all_cells (width height : Z) : list Cell :=
  x ← seqZ 0 width; y ← seqZ 0 height; [(x, y)].

(** [random.choices(population, k=k)] *)
Fixpoint choices (population : list Cell) (k : nat) : M (list nat) (list Cell) :=
  match k with
  | O => ret []
  | S k' =>
      r ← (fun t => match t with [] => (Ok O, []) | r :: t' => (Ok r, t') end);
      match population !! (r mod length population)%nat with
      | Some c => cs ← choices population k'; ret (c :: cs)
      | None => raise IndexError
      end
  end.

(** [MoneyModel(n, width, height, seed)]: [seed] stands for the draws of
    the generator it seeds.  The value is the new model, or the exception
    that left none.  The checks that the framework makes on the dimensions
    of the grid and on the capacity of a cell are not followed: where they
    raise, there is no model. *)
Definition MoneyModel_init (n : nat) (width height : Z) (seed : list nat)
  : Result MoneyModel :=
  match choices (all_cells width height) n seed with
  | (Ok cells, t) =>
      Ok {| num_agents := Z.of_nat n;
            agents := map MoneyAgent_init cells;
            random := t;
            datacollector := {| model_vars := []; agent_vars := [] |};
            running := true |}
  | (Raise e, _) => Raise e
  end.

(** [datacollector.collect(model)]: the model reporter [Gini] is
    [compute_gini], the agent reporters are the two attributes.  The
    collector hands on an exception of the model reporter as a
    [RuntimeError] of which it is the cause, and has stored nothing then.
    The tables of agent data are kept per step of the model; [step] makes
    one collection per step, which adds one table. *)
Definition collect : M MoneyModel unit :=
  g ← reraise RuntimeError compute_gini;
  modify (fun m =>
    set_datacollector
      {| model_vars := model_vars (datacollector m) ++ [g];
         agent_vars := agent_vars (datacollector m)
                       ++ [map (fun a => (wealth a, steps_not_given a)) (agents m)] |}
      m).

(** [agents.do(method)] *)
Definition agents_do (method : nat -> M MoneyModel unit) : M MoneyModel unit :=
  n ← gets (fun m => length (agents m));
  for_each (seq 0 n) method.

Section Mesa.

(** The two services of the framework that the cell calls and that decide
    nothing about wealth are left open.

    [select_random_cell occupancy c r] is
    [c.neighborhood.select_random_cell()] together with the assignment of
    its result to [agent.cell]: from the cells on which the agents stand,
    the cell of the mover and a draw, the new cell, or the exception the
    framework raises.  An exception ends the run; what a failed assignment
    has left in [agent.cell] by then is not followed. *)
Variable select_random_cell : list Cell -> Cell -> nat -> Result Cell.

(** [shuffle draws positions] is [random.shuffle]: the order of
    activation and the draws that remain. *)
Variable shuffle : list nat -> list nat -> list nat * list nat.

Definition move (self : nat) : M MoneyModel unit :=
  me ← get_agent self;
  r ← random_draw;
  occupancy ← gets (fun m => map cell (agents m));
  c ← lift (select_random_cell occupancy (cell me) r);
  update_agent self (set_cell c).

(** [agents.shuffle_do(method)] *)
Definition agents_shuffle_do (method : nat -> M MoneyModel unit)
  : M MoneyModel unit :=
  n ← gets (fun m => length (agents m));
  t ← gets random;
  let (order, t') := shuffle t (seq 0 n) in
  modify (set_random t');;
  for_each order method.

Definition step : M MoneyModel unit :=
  collect;;
  agents_shuffle_do move;;
  agents_do give_money.

(** [for _ in range(k): model.step()] *)
Definition run_model (k : nat) : M MoneyModel unit := repeat_do k step.

(** The states of a simulation: a model as [MoneyModel] builds it, and
    whatever a data collection, a move, a gift or a whole step of the
    model makes of such a state. *)
Inductive reachable : MoneyModel -> Prop :=
| reach_init n width height seed m :
    MoneyModel_init n width height seed = Ok m -> reachable m
| reach_collect m : reachable m -> reachable (exec collect m)
| reach_move m i : reachable m -> reachable (exec (move i) m)
| reach_give_money m i : reachable m -> reachable (exec (give_money i) m)
| reach_step m : reachable m -> reachable (exec step m).

End Mesa.

(** What one call of [give_money] does to the agents [l], seen from their
    wealth: nothing, or one unit passes from the caller to a cellmate. *)
Inductive give_money_effect (self : nat) (l l' : list MoneyAgent) : Prop :=
| no_gift :
    map wealth l' = map wealth l ->
    give_money_effect self l l'
| gift other me o :
    other <> self ->
    l !! self = Some me ->
    l !! other = Some o ->
    cell o = cell me ->
    0 < wealth me ->
    map wealth l' =
      <[self := wealth me - 1]> (<[other := wealth o + 1]> (map wealth l)) ->
    give_money_effect self l l'.

(** [c] keeps the property [R] of models. *)
Definition keeps (R : MoneyModel -> Prop) {A} (c : M MoneyModel A) : Prop :=
  forall m, R m -> R (exec c m).

(** [R] is a property of the wealth snapshot and of the agent count. *)
Definition wealth_property (R : MoneyModel -> Prop) : Prop :=
  forall m m',
    wealths m' = wealths m -> num_agents m' = num_agents m -> R m -> R m'.

Definition all_nonneg (m : MoneyModel) : Prop :=
  Forall (fun w => 0 <= w) (wealths m).

(** ** The score as the specification words it *)

(** A snapshot is well-formed for a model when [num_agents] counts the
    agents, as it does in every model that [MoneyModel] builds. *)
Definition consistent (m : MoneyModel) : Prop :=
  num_agents m = Z.of_nat (length (agents m)).

(** [x] is the wealth values [ws] sorted ascending. *)
Definition ascending_of (ws x : list Z) : Prop :=
  Sorted Z.le x /\ x ≡ₚ ws.

(** The sum over [i] of [x[i] * (n - i)], for [i] from [0] to [n - 1]. *)
Definition spec_numerator (x : list Z) : Z :=
  let n := length x in
  sum (map (fun i => nth i x 0 * (Z.of_nat n - Z.of_nat i)) (seq 0 n)).

(** [B = (sum over i of x[i] * (n - i)) / (n * S)] *)
Definition spec_B (x : list Z) : Q :=
  (inject_Z (spec_numerator x)
   / (inject_Z (Z.of_nat (length x)) * inject_Z (sum x)))%Q.

(** [score = 1 + 1/n - 2 * B] *)
Definition spec_score (x : list Z) : Q :=
  (1 + 1 / inject_Z (Z.of_nat (length x)) - 2 * spec_B x)%Q.

(** The value of [compute_gini] as a function of what it reads. *)
Definition score_of (n : Z) (x : list Z) : Result Q :=
  match gini_B n x with
  | Ok B =>
      match truediv 1 n with
      | Ok inv_n => Ok (1 + inv_n - 2 * B)%Q
      | Raise e => Raise e
      end
  | Raise e => Raise e
  end.

(** The weighted sum, read from any starting index. *)
Definition weighted_from (n i : Z) (x : list Z) : Z :=
  sum (map (fun p => snd p * (n - fst p)) (enumerate_from i x)).

(** A model that holds the given wealth values, for trying the code on a
    snapshot; the agents all stand on the cell [(0, 0)]. *)
Definition snapshot (ws : list Z) : MoneyModel :=
  {| num_agents := Z.of_nat (length ws);
     agents := map (fun w => {| cell := (0, 0); wealth := w; steps_not_given := 0 |}) ws;
     random := [];
     datacollector := {| model_vars := []; agent_vars := [] |};
     running := true |}.

(** The invariant of the simulation: the agents hold [num_agents] units
    between them, [num_agents] counts them, and none is in debt. *)
Definition wealth_invariant (m : MoneyModel) : Prop :=
  total_wealth m = num_agents m
  /\ num_agents m = Z.of_nat (length (wealths m))
  /\ all_nonneg m.

(** An instance of the framework for running the model on examples: the
    mover steps along the first axis of a torus of width 2, and the agents
    are activated in reverse order. *)
Definition example_select_random_cell
  (occupancy : list Cell) (c : Cell) (r : nat) : Result Cell :=
  Ok ((fst c + Z.of_nat r) mod 2, snd c).

Definition example_shuffle (t : list nat) (l : list nat) : list nat * list nat :=
  (rev l, t).

Definition example_seed : list nat :=
  [0; 0; 0; 0; 0; 2; 2; 2; 1; 1; 2; 1; 0; 1; 1; 2; 3; 1; 4; 1; 5; 9; 2; 6;
   5; 3; 5]%nat.

(** [MoneyModel(5, 2, 2, seed)] on that seed. *)
Definition example_model : MoneyModel :=
  Eval vm_compute in
    match MoneyModel_init 5 2 2 example_seed with
    | Ok m => m
    | Raise _ => snapshot []
    end.

(** ** The Gini coefficient

    The tutorial introduces [compute_gini] as the Gini coefficient of the
    agents' wealth.  Its textbook definition is half the relative mean
    absolute difference: the sum of [|x_i - x_j|] over all ordered pairs,
    divided by [2 * n * S]. *)

(** The sum of [|a - b|] over the [b] of [l]. *)
Definition gap_to (a : Z) (l : list Z) : Z :=
  sum (map (fun b => Z.abs (a - b)) l).

(** The sum of [|x_i - x_j|] over all ordered pairs [(i, j)]. *)
Definition abs_diff_sum (l : list Z) : Z :=
  sum (map (fun a => gap_to a l) l).

(** The same sum over the pairs [i < j] only. *)
Fixpoint pair_gap (l : list Z) : Z :=
  match l with
  | [] => 0
  | a :: t => gap_to a t + pair_gap t
  end.

(** The Gini coefficient of a list of numbers with sum [S <> 0]. *)
Definition gini_coefficient (l : list Z) : Q :=
  (inject_Z (abs_diff_sum l)
   / inject_Z (2 * Z.of_nat (length l) * sum l))%Q.

(** ** The model of [2_collecting_data.ipynb] without a data collector

    The first [MoneyModel] of that tutorial steps its agents and collects
    nothing: [step] is [shuffle_do("move")] followed by [do("give_money")],
    with the [give_money] that keeps no count. *)
Section MesaPlain.

Variable select_random_cell : list Cell -> Cell -> nat -> Result Cell.
Variable shuffle : list nat -> list nat -> list nat * list nat.

Definition step_plain : M MoneyModel unit :=
  agents_shuffle_do shuffle (move select_random_cell);;
  agents_do give_money_plain.

Definition run_model_plain (k : nat) : M MoneyModel unit :=
  repeat_do k step_plain.

End MesaPlain.

(** Two models agree on what decides a simulation: where the agents stand,
    what they hold, and the draws left in the generator. *)
Definition agree (m m' : MoneyModel) : Prop :=
  map cell (agents m) = map cell (agents m')
  /\ wealths m = wealths m'
  /\ random m = random m'.

(** Two programs take agreeing models to the same result and to agreeing
    models. *)
Definition simulates {A} (c c' : M MoneyModel A) : Prop :=
  forall m m', agree m m' ->
    eval c m = eval c' m' /\ agree (exec c m) (exec c' m').

(** The attribute update [f] of one agent keeps the property [R]. *)
Definition update_ok (R : MoneyModel -> Prop) (f : MoneyAgent -> MoneyAgent)
  : Prop :=
  forall m i a,
    R m -> agents m !! i = Some a ->
    R (set_agents (<[i := f a]> (agents m)) m).

(** What the collector of a model for [n] agents holds: scores in
    [[0, 1]], and as many agent tables, each of [n] rows whose wealth sums
    to [n]. *)
Definition collector_invariant (m : MoneyModel) : Prop :=
  Forall (fun g => (0 <= g)%Q /\ (g <= 1)%Q) (model_vars (datacollector m))
  /\ Forall (fun tbl => Z.of_nat (length tbl) = num_agents m
                        /\ sum (map fst tbl) = num_agents m)
            (agent_vars (datacollector m))
  /\ length (agent_vars (datacollector m))
     = length (model_vars (datacollector m)).

(** Every agent's [steps_not_given] lies between [0] and [b]. *)
Definition steps_bounded (b : Z) (m : MoneyModel) : Prop :=
  Forall (fun a => 0 <= steps_not_given a <= b) (agents m).

(** The same while [agents.do("give_money")] is under way: the agents
    before position [j] have had their turn and may have counted one more
    step. *)
Definition steps_front (b : Z) (j : nat) (m : MoneyModel) : Prop :=
  forall i a,
    agents m !! i = Some a ->
    0 <= steps_not_given a
    /\ steps_not_given a <= (if decide (i < j)%nat then b + 1 else b).

(** * Properties *)

(** ** The monad *)

Lemma bind_run {St A B} (c : M St A) (k : A -> M St B) s :
  (c ≫= k) s =
  match c s with
  | (Ok a, s') => k a s'
  | (Raise e, s') => (Raise e, s')
  end.
Proof. reflexivity. Qed.

Lemma exec_bind {St A B} (c : M St A) (k : A -> M St B) s :
  exec (c ≫= k) s =
  match c s with
  | (Ok a, s') => exec (k a) s'
  | (Raise _, s') => s'
  end.
Proof.
  unfold exec, mbind, M_bind, bind. destruct (c s) as [[a|e] s']; reflexivity.
Qed.

Lemma eval_bind {St A B} (c : M St A) (k : A -> M St B) s :
  eval (c ≫= k) s =
  match c s with
  | (Ok a, s') => eval (k a) s'
  | (Raise e, _) => Raise e
  end.
Proof.
  unfold eval, mbind, M_bind, bind. destruct (c s) as [[a|e] s']; reflexivity.
Qed.

(** ** Sums, sorting and the weighted sum *)

Lemma sum_cons a l : sum (a :: l) = a + sum l.
Proof. reflexivity. Qed.


Lemma sum_Permutation l1 l2 : l1 ≡ₚ l2 -> sum l1 = sum l2.
Proof.
  induction 1; rewrite ?sum_cons in *; lia.
Qed.

Lemma sum_nonneg l : Forall (fun w => 0 <= w) l -> 0 <= sum l.
Proof. induction 1; rewrite ?sum_cons; [reflexivity|lia]. Qed.

Lemma sum_repeat w k : sum (repeat w k) = w * Z.of_nat k.
Proof.
  induction k as [|k IH]; [simpl; lia|].
  change (repeat w (S k)) with (w :: repeat w k). rewrite sum_cons, IH. lia.
Qed.

Lemma sum_map_scale c l : sum (map (Z.mul c) l) = c * sum l.
Proof.
  induction l as [|a l IH]; [simpl; lia|].
  change (map (Z.mul c) (a :: l)) with (c * a :: map (Z.mul c) l).
  rewrite !sum_cons, IH. lia.
Qed.

Lemma sorted_Sorted l : Sorted Z.le (sorted l).
Proof. apply (Sorted_merge_sort Z.le). Qed.

Lemma sorted_Permutation l : sorted l ≡ₚ l.
Proof. apply (merge_sort_Permutation Z.le). Qed.

Lemma sorted_length l : length (sorted l) = length l.
Proof. apply Permutation_length, sorted_Permutation. Qed.

Lemma sum_sorted l : sum (sorted l) = sum l.
Proof. apply sum_Permutation, sorted_Permutation. Qed.

(** [sorted l] is the only ascending rearrangement of [l]. *)
Lemma sorted_unique l x : ascending_of l x -> sorted l = x.
Proof.
  intros [Hs Hp]. apply (Sorted_unique Z.le).
  - apply sorted_Sorted.
  - exact Hs.
  - rewrite Hp. apply sorted_Permutation.
Qed.

Lemma sorted_perm_eq l1 l2 : l1 ≡ₚ l2 -> sorted l1 = sorted l2.
Proof.
  intros Hp. apply sorted_unique. split; [apply sorted_Sorted|].
  rewrite sorted_Permutation. symmetry. exact Hp.
Qed.

Lemma Sorted_repeat w k : Sorted Z.le (repeat w k).
Proof.
  induction k as [|k IH]; simpl; constructor; [exact IH|].
  destruct k; simpl; constructor. lia.
Qed.

Lemma sorted_repeat w k : sorted (repeat w k) = repeat w k.
Proof. apply sorted_unique. split; [apply Sorted_repeat|reflexivity]. Qed.

Lemma Sorted_map_scale c l :
  0 < c -> Sorted Z.le l -> Sorted Z.le (map (Z.mul c) l).
Proof.
  intros Hc. induction 1 as [|a l Hl IH Hhd]; simpl; constructor; [exact IH|].
  destruct Hhd; simpl; constructor. nia.
Qed.

Lemma sorted_map_scale c l :
  0 < c -> sorted (map (Z.mul c) l) = map (Z.mul c) (sorted l).
Proof.
  intros Hc. apply sorted_unique. split.
  - apply Sorted_map_scale; [exact Hc|apply sorted_Sorted].
  - apply Permutation_map, sorted_Permutation.
Qed.

Lemma weighted_sum_from n x : weighted_sum n x = weighted_from n 0 x.
Proof. reflexivity. Qed.

Lemma weighted_from_nil n i : weighted_from n i [] = 0.
Proof. reflexivity. Qed.

Lemma weighted_from_cons n i a x :
  weighted_from n i (a :: x) = a * (n - i) + weighted_from n (i + 1) x.
Proof. reflexivity. Qed.

Lemma weighted_from_lower n x :
  Forall (fun w => 0 <= w) x ->
  forall i, i + Z.of_nat (length x) <= n -> sum x <= weighted_from n i x.
Proof.
  induction 1 as [|a x Ha Hx IH]; intros i Hi.
  - reflexivity.
  - rewrite weighted_from_cons, sum_cons. simpl length in Hi.
    specialize (IH (i + 1)). nia.
Qed.

Lemma sum_lower_bound a x : Forall (Z.le a) x -> a * Z.of_nat (length x) <= sum x.
Proof.
  induction 1 as [|b x Hb Hx IH]; [simpl; lia|].
  rewrite sum_cons. simpl length. lia.
Qed.

(** Chebyshev's sum inequality for an ascending list against the descending
    weights [n - i]. *)
Lemma weighted_from_upper x :
  StronglySorted Z.le x ->
  forall n i, n = i + Z.of_nat (length x) ->
  2 * weighted_from n i x <= (Z.of_nat (length x) + 1) * sum x.
Proof.
  induction 1 as [|a x Hx IH Ha]; intros n i Hn.
  - rewrite weighted_from_nil. simpl. lia.
  - rewrite weighted_from_cons, sum_cons. simpl length in *.
    specialize (IH n (i + 1)). apply sum_lower_bound in Ha. nia.
Qed.

Lemma weighted_from_scale c n x :
  forall i, weighted_from n i (map (Z.mul c) x) = c * weighted_from n i x.
Proof.
  induction x as [|a x IH]; intros i.
  - rewrite !weighted_from_nil. lia.
  - change (map (Z.mul c) (a :: x)) with (c * a :: map (Z.mul c) x).
    rewrite !weighted_from_cons, IH. lia.
Qed.

Lemma weighted_from_repeat w k :
  forall n i, n = i + Z.of_nat k ->
  2 * weighted_from n i (repeat w k) = w * Z.of_nat k * (Z.of_nat k + 1).
Proof.
  induction k as [|k IH]; intros n i Hn.
  - rewrite weighted_from_nil. simpl. lia.
  - change (repeat w (S k)) with (w :: repeat w k).
    rewrite weighted_from_cons. specialize (IH n (i + 1)). nia.
Qed.

Lemma weighted_from_one_holder s k :
  forall n i, n = i + Z.of_nat k + 1 ->
  weighted_from n i (repeat 0 k ++ [s]) = s.
Proof.
  induction k as [|k IH]; intros n i Hn.
  - simpl app. rewrite weighted_from_cons, weighted_from_nil. simpl in Hn. nia.
  - change (repeat 0 (S k) ++ [s]) with (0 :: (repeat 0 k ++ [s])).
    rewrite weighted_from_cons, (IH n (i + 1)); lia.
Qed.

(** The weighted sum of the code is the indexed sum of the specification. *)
Lemma weighted_from_indexed n x :
  forall i,
  weighted_from n i x =
  sum (map (fun j => nth j x 0 * (n - (i + Z.of_nat j))) (seq 0 (length x))).
Proof.
  induction x as [|a x IH]; intros i; [reflexivity|].
  rewrite weighted_from_cons, IH. simpl length.
  cbn [seq]. rewrite <- seq_shift. cbn [map]. rewrite map_map.
  rewrite sum_cons. cbn [nth].
  replace (n - (i + Z.of_nat 0)) with (n - i) by lia.
  do 2 f_equal. apply map_ext. intros j. f_equal. lia.
Qed.

Lemma weighted_sum_spec x :
  weighted_sum (Z.of_nat (length x)) x = spec_numerator x.
Proof.
  rewrite weighted_sum_from, weighted_from_indexed. unfold spec_numerator.
  reflexivity.
Qed.

(** ** What [compute_gini] computes *)

Lemma compute_gini_run m :
  compute_gini m = (score_of (num_agents m) (sorted (wealths m)), m).
Proof.
  unfold compute_gini, score_of, wealths, mbind, M_bind, bind, gets, lift, ret.
  destruct (gini_B _ _) as [B|e]; [|reflexivity].
  destruct (truediv 1 _) as [inv_n|e]; reflexivity.
Qed.

Lemma eval_compute_gini m :
  eval compute_gini m = score_of (num_agents m) (sorted (wealths m)).
Proof. unfold eval. rewrite compute_gini_run. reflexivity. Qed.

Lemma score_of_ok n x :
  n <> 0 -> sum x <> 0 ->
  score_of n x =
  Ok (1 + inject_Z 1 / inject_Z n
      - 2 * (inject_Z (weighted_sum n x) / inject_Z (n * sum x)))%Q.
Proof.
  intros Hn Hs. unfold score_of, gini_B, truediv.
  destruct (decide (n * sum x = 0)) as [H0|_]; [nia|].
  destruct (decide (n = 0)) as [H0|_]; [contradiction|reflexivity].
Qed.

Lemma score_of_zero_sum n x :
  sum x = 0 -> score_of n x = Raise ZeroDivisionError.
Proof.
  intros Hs. unfold score_of, gini_B, truediv.
  destruct (decide (n * sum x = 0)) as [_|H0]; [reflexivity|nia].
Qed.

Lemma inject_Z_nonzero z : z <> 0 -> ~ (inject_Z z == 0)%Q.
Proof.
  intros Hz H. apply Hz. unfold Qeq in H. simpl in H. lia.
Qed.

(** The score over the common denominator [n * S]. *)
Lemma score_closed n S W :
  n <> 0 -> S <> 0 ->
  (1 + inject_Z 1 / inject_Z n - 2 * (inject_Z W / inject_Z (n * S))
   == inject_Z ((n + 1) * S - 2 * W) / inject_Z (n * S))%Q.
Proof.
  intros Hn HS.
  assert (Hn' := inject_Z_nonzero n Hn). assert (HS' := inject_Z_nonzero S HS).
  unfold Z.sub. rewrite inject_Z_plus, inject_Z_opp, !inject_Z_mult, inject_Z_plus.
  change (inject_Z 1) with 1%Q. change (inject_Z 2) with 2%Q.
  field. split; assumption.
Qed.

Lemma Qdiv_inject_nonneg N D : 0 <= N -> 0 < D -> (0 <= inject_Z N / inject_Z D)%Q.
Proof.
  intros HN HD. apply Qle_shift_div_l.
  - change 0%Q with (inject_Z 0). rewrite <- Zlt_Qlt. exact HD.
  - rewrite Qmult_0_l. change 0%Q with (inject_Z 0). rewrite <- Zle_Qle. exact HN.
Qed.

Lemma Qdiv_inject_le_1 N D : N <= D -> 0 < D -> (inject_Z N / inject_Z D <= 1)%Q.
Proof.
  intros HN HD. apply Qle_shift_div_r.
  - change 0%Q with (inject_Z 0). rewrite <- Zlt_Qlt. exact HD.
  - rewrite Qmult_1_l. rewrite <- Zle_Qle. exact HN.
Qed.

Lemma Qdiv_inject_zero D : (inject_Z 0 / inject_Z D == 0)%Q.
Proof. unfold Qdiv. change (inject_Z 0) with 0%Q. apply Qmult_0_l. Qed.

Lemma wealths_snapshot ws : wealths (snapshot ws) = ws.
Proof.
  unfold wealths, snapshot. simpl. rewrite map_map. simpl. apply map_id.
Qed.

Lemma consistent_snapshot ws : consistent (snapshot ws).
Proof. unfold consistent, snapshot. simpl. rewrite length_map. reflexivity. Qed.

Lemma consistent_length m :
  consistent m -> num_agents m = Z.of_nat (length (wealths m)).
Proof. unfold consistent, wealths. rewrite length_map. auto. Qed.

Lemma consistent_nonzero m :
  consistent m -> wealths m <> [] -> num_agents m <> 0.
Proof.
  intros Hc Hne. rewrite (consistent_length m Hc).
  destruct (wealths m); [contradiction|simpl; lia].
Qed.

Lemma Forall_eq_repeat_length (w : Z) l :
  Forall (fun a => a = w) l -> l = repeat w (length l).
Proof.
  induction 1 as [|a l Ha Hl IH]; simpl; [reflexivity|].
  rewrite <- IH, Ha. reflexivity.
Qed.

Lemma score_equal_wealth n w :
  (1 <= n)%nat -> w <> 0 ->
  exists v, score_of (Z.of_nat n) (sorted (repeat w n)) = Ok v /\ (v == 0)%Q.
Proof.
  intros Hn Hw. rewrite sorted_repeat.
  assert (Hs : sum (repeat w n) <> 0) by (rewrite sum_repeat; nia).
  rewrite score_of_ok by (assumption || lia).
  eexists. split; [reflexivity|].
  rewrite score_closed by (assumption || lia).
  rewrite weighted_sum_from.
  replace ((Z.of_nat n + 1) * sum (repeat w n)
           - 2 * weighted_from (Z.of_nat n) 0 (repeat w n)) with 0.
  - apply Qdiv_inject_zero.
  - rewrite (weighted_from_repeat w n (Z.of_nat n) 0), sum_repeat by lia. lia.
Qed.

Lemma Sorted_one_holder s k : 0 <= s -> Sorted Z.le (repeat 0 k ++ [s]).
Proof.
  intros Hs. induction k as [|k IH]; simpl.
  - repeat constructor.
  - constructor; [exact IH|]. destruct k; simpl; constructor; lia.
Qed.

(** ** The claims on [compute_gini] *)

(** C1.  Given a non-empty snapshot of wealth values of length [n] with sum
    [S > 0], [compute_gini] sorts the values ascending into [x], computes
    [B = (sum over i of x[i] * (n - i)) / (n * S)] and returns
    [1 + 1/n - 2 * B]: there is exactly one ascending rearrangement [x] of
    the snapshot, the code's [B] is the [B] of the specification on it, and
    the code's result is its score.  Non-negativity of the values is not
    needed for this. *)
Theorem compute_gini_formula (m : MoneyModel) :
  consistent m ->
  wealths m <> [] ->
  0 < total_wealth m ->
  exists x,
    ascending_of (wealths m) x
    /\ (forall y, ascending_of (wealths m) y -> y = x)
    /\ gini_B (num_agents m) x = Ok (spec_B x)
    /\ eval compute_gini m = Ok (spec_score x).
Proof.
  intros Hc Hne Hpos.
  assert (Hn := consistent_nonzero m Hc Hne).
  exists (sorted (wealths m)).
  assert (Hx : ascending_of (wealths m) (sorted (wealths m)))
    by (split; [apply sorted_Sorted|apply sorted_Permutation]).
  split; [exact Hx|].
  split; [intros y Hy; symmetry; apply sorted_unique, Hy|].
  set (x := sorted (wealths m)) in *.
  assert (Hlen : num_agents m = Z.of_nat (length x)).
  { rewrite (consistent_length m Hc). f_equal. symmetry. apply sorted_length. }
  assert (Hs : sum x = total_wealth m) by apply sum_sorted.
  split.
  - unfold gini_B, truediv.
    destruct (decide (num_agents m * sum x = 0)) as [H0|_]; [nia|].
    rewrite Hlen, weighted_sum_spec. reflexivity.
  - rewrite eval_compute_gini. fold x. rewrite score_of_ok by lia.
    rewrite Hlen, weighted_sum_spec. reflexivity.
Qed.

Lemma compute_gini_formula_witness :
  exists x,
    ascending_of (wealths (snapshot [3; 1; 2])) x
    /\ (forall y, ascending_of (wealths (snapshot [3; 1; 2])) y -> y = x)
    /\ gini_B (num_agents (snapshot [3; 1; 2])) x = Ok (spec_B x)
    /\ eval compute_gini (snapshot [3; 1; 2]) = Ok (spec_score x).
Proof.
  apply (compute_gini_formula (snapshot [3; 1; 2])).
  - apply consistent_snapshot.
  - rewrite wealths_snapshot. discriminate.
  - reflexivity.
Defined.

(** On [[3, 1, 2]] the specification's score of the sorted list is [2/9]. *)
Example spec_score_example :
  sorted [3; 1; 2] = [1; 2; 3] /\ Qred (spec_score [1; 2; 3]) = (2 # 9)%Q.
Proof. split; vm_compute; reflexivity. Qed.

(** C2 (as the code has it).  On a snapshot in which every individual
    holds zero wealth, [compute_gini] raises [ZeroDivisionError] at the
    division by [n * sum(x)]: it returns no value, neither a sentinel [0]
    nor not-a-number, and it leaves the model as it was. *)
Theorem compute_gini_zero_wealth_raises (m : MoneyModel) :
  Forall (fun w => w = 0) (wealths m) ->
  compute_gini m = (Raise ZeroDivisionError, m).
Proof.
  intros Hz. rewrite compute_gini_run. f_equal.
  apply score_of_zero_sum. rewrite sum_sorted.
  rewrite (Forall_eq_repeat_length 0 _ Hz), sum_repeat. lia.
Qed.

Lemma compute_gini_zero_wealth_raises_witness :
  compute_gini (snapshot [0; 0; 0]) = (Raise ZeroDivisionError, snapshot [0; 0; 0]).
Proof.
  apply (compute_gini_zero_wealth_raises (snapshot [0; 0; 0])).
  rewrite wealths_snapshot. repeat constructor.
Defined.

(** C2 (as stated) fails: on the snapshot [[0, 0, 0]] no value is returned,
    so in particular not the sentinel [0]. *)
Lemma compute_gini_zero_wealth_no_sentinel :
  ~ (exists v, eval compute_gini (snapshot [0; 0; 0]) = Ok v /\ (v == 0)%Q).
Proof.
  intros [v [Hv _]]. vm_compute in Hv. discriminate Hv.
Qed.

Lemma score_range n x :
  n = Z.of_nat (length x) ->
  x <> [] ->
  Forall (fun w => 0 <= w) x ->
  0 < sum x ->
  exists v, score_of n (sorted x) = Ok v /\ (0 <= v)%Q /\ (v <= 1)%Q.
Proof.
  intros Hlen Hne Hnn Hpos.
  assert (Hn : n <> 0) by (destruct x; [contradiction|simpl in Hlen; lia]).
  set (y := sorted x).
  assert (Hs : sum y = sum x) by apply sum_sorted.
  assert (Hl : length y = length x) by apply sorted_length.
  rewrite score_of_ok by lia.
  eexists. split; [reflexivity|].
  rewrite score_closed by lia.
  rewrite weighted_sum_from.
  assert (Hup : 2 * weighted_from n 0 y <= (Z.of_nat (length y) + 1) * sum y).
  { apply weighted_from_upper; [|lia].
    apply Sorted_StronglySorted; [exact Z.le_trans|apply sorted_Sorted]. }
  assert (Hlow : sum y <= weighted_from n 0 y).
  { apply weighted_from_lower; [|lia].
    apply (Permutation_Forall (x := x)); [|exact Hnn].
    symmetry. apply sorted_Permutation. }
  split.
  - apply Qdiv_inject_nonneg; nia.
  - apply Qdiv_inject_le_1; nia.
Qed.

(** C3.  On every non-empty snapshot of non-negative wealth values with
    positive sum the score lies in [[0, 1]], and it is [0] when all hold
    the same wealth. *)
Theorem compute_gini_range (m : MoneyModel) :
  consistent m ->
  wealths m <> [] ->
  Forall (fun w => 0 <= w) (wealths m) ->
  0 < total_wealth m ->
  (exists v, eval compute_gini m = Ok v /\ (0 <= v)%Q /\ (v <= 1)%Q)
  /\ ((exists w, Forall (fun a => a = w) (wealths m)) ->
      exists v, eval compute_gini m = Ok v /\ (v == 0)%Q).
Proof.
  intros Hc Hne Hnn Hpos.
  assert (Hn := consistent_nonzero m Hc Hne).
  assert (Hlen := consistent_length m Hc).
  split.
  - rewrite eval_compute_gini. apply score_range; assumption.
  - intros [w Hw]. rewrite eval_compute_gini.
    assert (Hr := Forall_eq_repeat_length w _ Hw).
    assert (Hk : (1 <= length (wealths m))%nat)
      by (destruct (wealths m); [contradiction|simpl; lia]).
    unfold total_wealth in Hpos.
    set (k := length (wealths m)) in *.
    rewrite Hlen, Hr. apply score_equal_wealth; [exact Hk|].
    intros ->. rewrite Hr, sum_repeat in Hpos. lia.
Qed.

Lemma compute_gini_range_witness :
  (exists v, eval compute_gini (snapshot [2; 0; 5]) = Ok v /\ (0 <= v)%Q /\ (v <= 1)%Q)
  /\ ((exists w, Forall (fun a => a = w) (wealths (snapshot [2; 0; 5]))) ->
      exists v, eval compute_gini (snapshot [2; 0; 5]) = Ok v /\ (v == 0)%Q).
Proof.
  apply (compute_gini_range (snapshot [2; 0; 5])).
  - apply consistent_snapshot.
  - rewrite wealths_snapshot. discriminate.
  - rewrite wealths_snapshot. repeat constructor; lia.
  - reflexivity.
Defined.

(** C4.  A population of [n >= 1] individuals who all hold the same wealth
    [w > 0] has score [0]; on [[1, 1, 1, 1]] the code computes
    [B = 10/16] and the score [0]. *)
Theorem equal_wealth_score_zero (m : MoneyModel) (n : nat) (w : Z) :
  (1 <= n)%nat ->
  0 < w ->
  num_agents m = Z.of_nat n ->
  wealths m = repeat w n ->
  (exists v, eval compute_gini m = Ok v /\ (v == 0)%Q)
  /\ gini_B 4 (sorted [1; 1; 1; 1]) = Ok (10 # 16)%Q
  /\ (exists v, eval compute_gini (snapshot [1; 1; 1; 1]) = Ok v /\ (v == 0)%Q).
Proof.
  intros Hn Hw Hnum Hws. split; [|split].
  - rewrite eval_compute_gini, Hnum, Hws. apply score_equal_wealth; lia.
  - reflexivity.
  - eexists. split; [vm_compute; reflexivity|reflexivity].
Qed.

Lemma equal_wealth_score_zero_witness :
  (exists v, eval compute_gini (snapshot [7; 7; 7]) = Ok v /\ (v == 0)%Q)
  /\ gini_B 4 (sorted [1; 1; 1; 1]) = Ok (10 # 16)%Q
  /\ (exists v, eval compute_gini (snapshot [1; 1; 1; 1]) = Ok v /\ (v == 0)%Q).
Proof.
  apply (equal_wealth_score_zero (snapshot [7; 7; 7]) 3 7).
  - lia.
  - lia.
  - reflexivity.
  - reflexivity.
Defined.

(** C6.  Two snapshots that are permutations of each other have the same
    score (or raise the same exception): the order of the agents does not
    matter. *)
Theorem compute_gini_permutation (m1 m2 : MoneyModel) :
  consistent m1 ->
  consistent m2 ->
  wealths m1 ≡ₚ wealths m2 ->
  eval compute_gini m1 = eval compute_gini m2.
Proof.
  intros H1 H2 Hp. rewrite !eval_compute_gini.
  rewrite (consistent_length m1 H1), (consistent_length m2 H2).
  rewrite (Permutation_length Hp), (sorted_perm_eq _ _ Hp). reflexivity.
Qed.

Lemma compute_gini_permutation_witness :
  eval compute_gini (snapshot [3; 0; 2; 5]) = eval compute_gini (snapshot [5; 2; 3; 0]).
Proof.
  apply (compute_gini_permutation (snapshot [3; 0; 2; 5]) (snapshot [5; 2; 3; 0])).
  - apply consistent_snapshot.
  - apply consistent_snapshot.
  - rewrite !wealths_snapshot.
    apply (perm_trans (l' := [5; 3; 0; 2])).
    + symmetry. apply (Permutation_cons_append [3; 0; 2] 5).
    + apply perm_skip. symmetry. apply (Permutation_cons_append [3; 0] 2).
Defined.

Lemma score_of_scale n c x :
  0 < c -> n <> 0 -> sum x <> 0 ->
  exists v v', score_of n (sorted x) = Ok v
               /\ score_of n (sorted (map (Z.mul c) x)) = Ok v'
               /\ (v' == v)%Q.
Proof.
  intros Hc Hn Hsum. rewrite sorted_map_scale by exact Hc.
  set (y := sorted x).
  assert (Hs : sum y = sum x) by apply sum_sorted.
  assert (Hs' : sum (map (Z.mul c) y) = c * sum y) by apply sum_map_scale.
  rewrite !score_of_ok by nia.
  do 2 eexists. split; [reflexivity|split; [reflexivity|]].
  rewrite !score_closed by nia.
  rewrite !weighted_sum_from, weighted_from_scale, Hs'.
  set (W := weighted_from n 0 y).
  replace ((n + 1) * (c * sum y) - 2 * (c * W))
    with (c * ((n + 1) * sum y - 2 * W)) by lia.
  replace (n * (c * sum y)) with (c * (n * sum y)) by lia.
  assert (Hc' := inject_Z_nonzero c ltac:(lia)).
  assert (HD := inject_Z_nonzero (n * sum y) ltac:(nia)).
  rewrite !(inject_Z_mult c). field. split; assumption.
Qed.

(** C7.  Multiplying every wealth value of a non-empty snapshot with
    positive sum by a positive constant leaves the score unchanged.  The
    constant is the ratio [c/d] of two positive integers, the second
    snapshot [ws'] being given by [d * ws' = c * ws]: these are all the
    positive constants that take an integer snapshot to an integer
    snapshot; [d = 1] is the scaling by the integer [c]. *)
Theorem compute_gini_scaling (m m' : MoneyModel) (c d : Z) :
  0 < c ->
  0 < d ->
  consistent m ->
  wealths m <> [] ->
  0 < total_wealth m ->
  num_agents m' = num_agents m ->
  map (Z.mul d) (wealths m') = map (Z.mul c) (wealths m) ->
  exists v v', eval compute_gini m = Ok v /\ eval compute_gini m' = Ok v'
               /\ (v' == v)%Q.
Proof.
  intros Hc Hd Hcons Hne Hpos Hnum Hws.
  assert (Hn := consistent_nonzero m Hcons Hne).
  assert (Hsum' : sum (wealths m') <> 0).
  { assert (H := f_equal sum Hws). rewrite !sum_map_scale in H.
    unfold total_wealth in Hpos. nia. }
  rewrite !eval_compute_gini, Hnum.
  assert (Hsum : sum (wealths m) <> 0) by (unfold total_wealth in Hpos; lia).
  destruct (score_of_scale (num_agents m) c (wealths m) Hc Hn Hsum)
    as (v & vc & Hv & Hvc & Heq).
  destruct (score_of_scale (num_agents m) d (wealths m') Hd Hn Hsum')
    as (v' & vd & Hv' & Hvd & Heq').
  exists v, v'. split; [exact Hv|split; [exact Hv'|]].
  rewrite Hws, Hvc in Hvd. injection Hvd as <-.
  rewrite <- Heq', Heq. reflexivity.
Qed.

Lemma compute_gini_scaling_witness :
  exists v v', eval compute_gini (snapshot [2; 8; 4]) = Ok v
               /\ eval compute_gini (snapshot [3; 12; 6]) = Ok v'
               /\ (v' == v)%Q.
Proof.
  apply (compute_gini_scaling (snapshot [2; 8; 4]) (snapshot [3; 12; 6]) 3 2).
  - lia.
  - lia.
  - apply consistent_snapshot.
  - rewrite wealths_snapshot. discriminate.
  - reflexivity.
  - reflexivity.
  - reflexivity.
Defined.

(** ** The binary64 reading *)

(** In binary64 the two examples of the specification come out exactly:
    [+0.0] on [[1, 1, 1, 1]], with [B = 0.625], and [0.75] on
    [[0, 0, 0, 4]]. *)
Example binary64_equal_wealth :
  eval Binary64.compute_gini (snapshot [1; 1; 1; 1]) = Ok (S754_zero false)
  /\ Binary64.truediv 10 16 = Ok (S754_finite false 5629499534213120 (-53))
  /\ (Binary64.to_Q (S754_finite false 5629499534213120 (-53))
      ≫= fun q => Some (Qred q)) = Some (5 # 8)%Q.
Proof. repeat split; vm_compute; reflexivity. Qed.

Example binary64_one_holder :
  eval Binary64.compute_gini (snapshot [0; 0; 0; 4])
  = Ok (S754_finite false 6755399441055744 (-53))
  /\ (Binary64.to_Q (S754_finite false 6755399441055744 (-53))
      ≫= fun q => Some (Qred q)) = Some (3 # 4)%Q.
Proof. split; vm_compute; reflexivity. Qed.

(** The float reading reads the model and leaves it as it is. *)
Lemma binary64_run m :
  Binary64.compute_gini m
  = (Binary64.score_of (num_agents m) (sorted (wealths m)), m).
Proof.
  unfold Binary64.compute_gini, Binary64.score_of, wealths.
  rewrite bind_run. unfold gets at 1. rewrite bind_run. unfold gets at 1.
  rewrite bind_run. unfold lift at 1.
  destruct (Binary64.truediv _ _) as [B|e]; [|reflexivity].
  rewrite bind_run. unfold lift.
  destruct (Binary64.truediv 1 _) as [inv_n|e]; reflexivity.
Qed.

Lemma binary64_eval m :
  eval Binary64.compute_gini m
  = Binary64.score_of (num_agents m) (sorted (wealths m)).
Proof. unfold eval. rewrite binary64_run. reflexivity. Qed.

Lemma binary64_exec m : exec Binary64.compute_gini m = m.
Proof. unfold exec. rewrite binary64_run. reflexivity. Qed.

(** The exceptions of the division. *)
Lemma binary64_truediv_raises a b e :
  Binary64.truediv a b = Raise e ->
  (e = ZeroDivisionError /\ b = 0) \/ (e = OverflowError /\ b <> 0).
Proof.
  unfold Binary64.truediv. destruct (decide (b = 0)) as [Hb|Hb].
  - intros [= <-]. left. split; [reflexivity|exact Hb].
  - destruct (Binary64.round_quotient a b); try discriminate.
    intros [= <-]. right. split; [reflexivity|exact Hb].
Qed.

Lemma binary64_truediv_zero a : Binary64.truediv a 0 = Raise ZeroDivisionError.
Proof. reflexivity. Qed.

Lemma binary64_score_raises n x e :
  Binary64.score_of n x = Raise e ->
  (e = ZeroDivisionError /\ n * sum x = 0) \/ (e = OverflowError /\ n * sum x <> 0).
Proof.
  unfold Binary64.score_of.
  destruct (Binary64.truediv (weighted_sum n x) (n * sum x)) as [B|e1] eqn:HB.
  - destruct (Binary64.truediv 1 n) as [inv_n|e2] eqn:Hn; [discriminate|].
    intros [= <-]. apply binary64_truediv_raises in Hn as [[-> Hn0]|[-> Hn0]].
    + exfalso. rewrite Hn0 in HB. discriminate HB.
    + right. split; [reflexivity|].
      intros H0. rewrite H0 in HB. discriminate HB.
  - intros [= <-]. apply binary64_truediv_raises in HB. exact HB.
Qed.


(** The rounded quotient agrees with the quotient computed without
    reducing the fraction, on quotients small and large. *)
Example binary64_round_quotient_examples :
  Binary64.round_quotient 10 16
  = SFdiv Binary64.prec Binary64.emax (Binary64.of_int 10) (Binary64.of_int 16)
  /\ Binary64.round_quotient 1 3 = S754_finite false 6004799503160661 (-54)
  /\ Binary64.round_quotient (-7) 2 = S754_finite true 7881299347898368 (-51)
  /\ Binary64.round_quotient (2 ^ 53 + 1) 1 = S754_finite false 4503599627370496 1
  /\ Binary64.round_quotient (2 ^ 53 + 3) 1 = S754_finite false 4503599627370498 1
  /\ Binary64.round_quotient 1 (2 ^ 1074) = S754_finite false 1 (-1074)
  /\ Binary64.round_quotient 1 (2 ^ 1075) = S754_zero false
  /\ Binary64.round_quotient (2 ^ 1024) 1 = S754_infinity false
  /\ Binary64.round_quotient 0 (-5) = S754_zero true.
Proof. repeat split; vm_compute; reflexivity. Qed.

(** Reducing the fraction does not change the rounded quotient: on
    fractions not in lowest terms it is the quotient with remainder of the
    two integers as they are, rounded. *)
Example binary64_round_quotient_unreduced :
  Forall
    (fun '(a, b) =>
       Binary64.round_quotient a b
       = let '(mz, ez, lz) :=
           SFdiv_core_binary Binary64.prec Binary64.emax a 0 b 0 in
         binary_round_aux Binary64.prec Binary64.emax false mz ez lz)
    [(10, 16); (6 * 10 ^ 30, 4 * 10 ^ 5); (3 ^ 200, 3 ^ 190 * 7);
     (2 ^ 2000 + 2 ^ 1000, 2 ^ 1500); (12345678901234567890, 9876543210);
     (10 ^ 400, 2 * 10 ^ 100); (7 * 2 ^ 60 + 14, 21)].
Proof. repeat constructor; vm_compute; reflexivity. Qed.

(** *** Quotients that fit a float

    The rounding of [SpecFloat] yields an infinity only when the exponent
    it arrives at exceeds [emax - prec]; the number of binary digits of the
    mantissa bounds that exponent. *)

Lemma digits2_pos_size p : digits2_pos p = Pos.size p.
Proof. induction p; simpl; congruence. Qed.

Lemma Zdigits2_log2 m : 0 < m -> Zdigits2 m = Z.log2 m + 1.
Proof.
  destruct m as [|p|p]; try lia. intros _. simpl.
  destruct p; simpl; rewrite ?digits2_pos_size; lia.
Qed.

Lemma Zdigits2_le_pow2 m k : 0 <= k -> 0 <= m <= 2 ^ k -> Zdigits2 m <= k + 1.
Proof.
  intros Hk [H0 Hm]. destruct (Z.eq_dec m 0) as [->|Hne]; [simpl; lia|].
  rewrite Zdigits2_log2 by lia.
  assert (H := Z.log2_le_mono m (2 ^ k) Hm). rewrite Z.log2_pow2 in H by lia. lia.
Qed.

Lemma Zdigits2_succ m : 0 <= m -> Zdigits2 (m + 1) <= Zdigits2 m + 1.
Proof.
  intros Hm. destruct (Z.eq_dec m 0) as [->|Hne]; [simpl; lia|].
  rewrite !Zdigits2_log2 by lia.
  assert (H := Z.log2_succ_le m). unfold Z.succ in H. lia.
Qed.

Lemma shr_1_digits mrs :
  Zdigits2 (shr_m (shr_1 mrs)) = Z.max 0 (Zdigits2 (shr_m mrs) - 1).
Proof.
  destruct mrs as [m r s]. destruct m as [|p|p]; [reflexivity| |];
    destruct p; cbn [shr_1 shr_m Zdigits2 digits2_pos];
    rewrite ?Pos2Z.inj_succ; lia.
Qed.

Lemma shr_1_nonneg mrs : 0 <= shr_m mrs -> 0 <= shr_m (shr_1 mrs).
Proof.
  destruct mrs as [m r s]. destruct m as [|p|p]; simpl; try lia;
    destruct p; simpl; lia.
Qed.

Lemma iter_shr_1_digits p : forall mrs,
  Zdigits2 (shr_m (SpecFloat.iter_pos shr_1 p mrs)) = Z.max 0 (Zdigits2 (shr_m mrs) - Z.pos p).
Proof.
  induction p as [p IH|p IH|]; intros mrs; simpl.
  - rewrite !IH, shr_1_digits. lia.
  - rewrite !IH. lia.
  - apply shr_1_digits.
Qed.

Lemma iter_shr_1_nonneg p : forall mrs,
  0 <= shr_m mrs -> 0 <= shr_m (SpecFloat.iter_pos shr_1 p mrs).
Proof.
  induction p as [p IH|p IH|]; intros mrs H; simpl.
  - apply IH, IH, shr_1_nonneg, H.
  - apply IH, IH, H.
  - apply shr_1_nonneg, H.
Qed.

Section RoundingBounds.
Variable prec emax : Z.
Hypothesis Hprec : 0 < prec.
Hypothesis Hemax : 2 <= emax.

Lemma fexp_le t : t <= emax -> fexp prec emax t <= emax - prec.
Proof. unfold fexp, emin. lia. Qed.

Lemma shr_record_of_loc_m m l : shr_m (shr_record_of_loc m l) = m.
Proof. destruct l as [|[]]; reflexivity. Qed.

Lemma shr_fexp_bound m e l mrs' e' :
  0 <= m ->
  shr_fexp prec emax m e l = (mrs', e') ->
  0 <= shr_m mrs'
  /\ (e' = e \/ e' = fexp prec emax (Zdigits2 m + e))
  /\ Zdigits2 (shr_m mrs') + e' <= Z.max (Zdigits2 m + e) e'.
Proof.
  intros Hm. unfold shr_fexp, shr.
  destruct (fexp prec emax (Zdigits2 m + e) - e) as [|p|p] eqn:Hn;
    intros [= <- <-]; rewrite ?shr_record_of_loc_m.
  - split; [exact Hm|]. split; [left; reflexivity|lia].
  - split; [apply iter_shr_1_nonneg; rewrite shr_record_of_loc_m; exact Hm|].
    split; [right; lia|].
    rewrite iter_shr_1_digits, shr_record_of_loc_m. lia.
  - split; [exact Hm|]. split; [left; reflexivity|lia].
Qed.

Lemma round_nearest_even_bound m l :
  0 <= m ->
  0 <= round_nearest_even m l
  /\ Zdigits2 (round_nearest_even m l) <= Zdigits2 m + 1.
Proof.
  intros Hm. assert (Hs := Zdigits2_succ m Hm).
  destruct l as [|[]]; simpl; try (split; lia).
  destruct (Z.even m); split; lia.
Qed.

Lemma binary_round_aux_finite sx mx ex lx :
  0 <= mx -> ex <= emax - prec -> Zdigits2 mx + ex <= emax - 1 ->
  forall s, binary_round_aux prec emax sx mx ex lx <> S754_infinity s.
Proof.
  intros Hm He Hd s. unfold binary_round_aux.
  destruct (shr_fexp prec emax mx ex lx) as [mrs1 e1] eqn:H1.
  destruct (shr_fexp_bound _ _ _ _ _ Hm H1) as (Hm1 & He1 & Hd1).
  destruct (round_nearest_even_bound (shr_m mrs1) (loc_of_shr_record mrs1) Hm1)
    as (Hm2 & Hd2).
  destruct (shr_fexp prec emax _ e1 loc_Exact) as [mrs2 e2] eqn:H2.
  destruct (shr_fexp_bound _ _ _ _ _ Hm2 H2) as (Hm3 & He2 & Hd3).
  assert (Hf1 := fexp_le (Zdigits2 mx + ex) ltac:(lia)).
  assert (He1' : e1 <= emax - prec) by (destruct He1; lia).
  assert (Hf2 := fexp_le (Zdigits2 (round_nearest_even (shr_m mrs1) (loc_of_shr_record mrs1)) + e1) ltac:(lia)).
  assert (He2' : e2 <= emax - prec) by (destruct He2; lia).
  destruct (shr_m mrs2); try discriminate.
  destruct (Z.leb_spec e2 (emax - prec)); [discriminate|lia].
Qed.

Lemma SFdiv_core_binary_bound p d mz ez lz :
  0 < p <= d ->
  SFdiv_core_binary prec emax p 0 d 0 = (mz, ez, lz) ->
  0 <= mz /\ ez <= 0 /\ Zdigits2 mz + ez <= 1.
Proof.
  intros Hpd. unfold SFdiv_core_binary.
  set (e' := Z.min _ _). assert (He' : e' <= 0) by (unfold e'; lia).
  replace (0 - 0 - e') with (- e') by lia.
  set (m' := match - e' with Z.pos _ => Z.shiftl p (- e') | 0 => p | Z.neg _ => 0 end).
  assert (Hm' : m' = p * 2 ^ (- e')).
  { unfold m'. destruct (- e') as [|q|q] eqn:Hq.
    - rewrite Z.pow_0_r. lia.
    - rewrite Z.shiftl_mul_pow2 by lia. reflexivity.
    - lia. }
  assert (Hdiv := Z.div_eucl_eq m' d ltac:(lia)).
  assert (Hmod := Z.mod_pos_bound m' d ltac:(lia)).
  unfold Z.modulo in Hmod.
  destruct (Z.div_eucl m' d) as [q r]. intros [= <- <- <-].
  assert (Hpow : 0 < 2 ^ (- e')) by (apply Z.pow_pos_nonneg; lia).
  assert (Hq0 : 0 <= q) by nia.
  assert (Hq1 : q <= 2 ^ (- e')) by nia.
  split; [exact Hq0|]. split; [exact He'|].
  assert (H := Zdigits2_le_pow2 q (- e') ltac:(lia) ltac:(lia)). lia.
Qed.

End RoundingBounds.

Lemma binary64_round_quotient_finite a b s :
  b <> 0 -> Z.abs a <= Z.abs b -> Binary64.round_quotient a b <> S754_infinity s.
Proof.
  intros Hb Hab. unfold Binary64.round_quotient.
  set (g := Z.gcd (Z.abs a) (Z.abs b)).
  assert (Hg : 0 < g).
  { assert (H0 := Z.gcd_nonneg (Z.abs a) (Z.abs b)).
    assert (H1 : g <> 0) by (intros H; apply Z.gcd_eq_0_r in H; lia).
    unfold g in *. lia. }
  assert (Hle : Z.abs a / g <= Z.abs b / g) by (apply Z.div_le_mono; lia).
  assert (H0 : 0 <= Z.abs a / g) by (apply Z.div_pos; lia).
  destruct (Z.abs a / g) as [|p|p] eqn:Hp; [discriminate| |lia].
  destruct (SFdiv_core_binary Binary64.prec Binary64.emax (Z.pos p) 0 (Z.abs b / g) 0)
    as [[mz ez] lz] eqn:Hdiv.
  destruct (SFdiv_core_binary_bound Binary64.prec Binary64.emax
              (Z.pos p) (Z.abs b / g) mz ez lz ltac:(lia) Hdiv) as (Hmz & Hez & Hd).
  apply binary_round_aux_finite; unfold Binary64.prec, Binary64.emax; lia.
Qed.

(** A quotient of absolute value at most [1] is a float. *)
Lemma binary64_truediv_returns a b :
  b <> 0 -> Z.abs a <= Z.abs b -> exists f, Binary64.truediv a b = Ok f.
Proof.
  intros Hb Hab. unfold Binary64.truediv.
  destruct (decide (b = 0)); [contradiction|].
  assert (H := binary64_round_quotient_finite a b).
  destruct (Binary64.round_quotient a b) as [s|s| |s m e]; eauto.
  exfalso. apply (H s); [exact Hb|exact Hab|reflexivity].
Qed.

Lemma weighted_from_nonneg n x :
  Forall (fun w => 0 <= w) x ->
  forall i, 0 <= i -> i + Z.of_nat (length x) <= n ->
  0 <= weighted_from n i x <= n * sum x.
Proof.
  induction 1 as [|a x Ha Hx IH]; intros i Hi Hn.
  - rewrite weighted_from_nil. simpl. lia.
  - rewrite weighted_from_cons, sum_cons. simpl length in Hn.
    specialize (IH (i + 1) ltac:(lia) ltac:(lia)). nia.
Qed.

(** On non-negative wealth, not all zero, the score is a float. *)
Lemma binary64_score_returns n x :
  n = Z.of_nat (length x) -> Forall (fun w => 0 <= w) x -> 0 < sum x ->
  exists f, Binary64.score_of n x = Ok f.
Proof.
  intros Hn Hnn Hpos. unfold Binary64.score_of.
  assert (Hn0 : 0 < n).
  { destruct x; [simpl in Hpos; lia|simpl length in Hn; lia]. }
  assert (HW := weighted_from_nonneg n x Hnn 0 ltac:(lia) ltac:(lia)).
  rewrite <- weighted_sum_from in HW.
  destruct (binary64_truediv_returns (weighted_sum n x) (n * sum x)) as [B ->];
    [nia|rewrite !Z.abs_eq by nia; lia|].
  destruct (binary64_truediv_returns 1 n) as [inv_n ->]; [lia|lia|].
  eexists. reflexivity.
Qed.

Lemma binary64_compute_gini_returns m :
  consistent m -> all_nonneg m -> 0 < total_wealth m ->
  exists f, eval Binary64.compute_gini m = Ok f.
Proof.
  intros Hc Hnn Hpos. rewrite binary64_eval. apply binary64_score_returns.
  - rewrite sorted_length. apply consistent_length, Hc.
  - apply (Permutation_Forall (x := wealths m)); [|exact Hnn].
    symmetry. apply sorted_Permutation.
  - rewrite sum_sorted. exact Hpos.
Qed.









(** ** The simulation *)

Lemma get_agent_run i m :
  get_agent i m =
  match agents m !! i with
  | Some a => (Ok a, m)
  | None => (Raise FrameworkError, m)
  end.
Proof.
  unfold get_agent. rewrite bind_run. unfold gets.
  destruct (agents m !! i); reflexivity.
Qed.

Lemma update_agent_run i f m :
  update_agent i f m =
  match agents m !! i with
  | Some a => (Ok tt, set_agents (<[i := f a]> (agents m)) m)
  | None => (Raise FrameworkError, m)
  end.
Proof.
  unfold update_agent. rewrite bind_run, get_agent_run.
  destruct (agents m !! i); reflexivity.
Qed.

Lemma random_draw_run m :
  exists r t, random_draw m = (Ok r, set_random t m).
Proof.
  unfold random_draw. destruct m as [n l [|r t] d b]; simpl.
  - exists 0%nat, []. reflexivity.
  - exists r, t. reflexivity.
Qed.

Lemma random_choice_run {A} (seq : list A) m :
  exists t, (exists x, x ∈ seq /\ random_choice seq m = (Ok x, set_random t m))
            \/ random_choice seq m = (Raise IndexError, set_random t m).
Proof.
  unfold random_choice. rewrite bind_run.
  destruct (random_draw_run m) as [r [t ->]]. exists t.
  destruct (seq !! (r mod length seq)%nat) as [x|] eqn:Hx.
  - left. exists x. split; [|reflexivity]. eapply list_elem_of_lookup_2, Hx.
  - right. reflexivity.
Qed.

Lemma map_insert {A B} (f : A -> B) (l : list A) i x :
  map f (<[i := x]> l) = <[i := f x]> (map f l).
Proof.
  revert i. induction l as [|a l IH]; intros [|i]; simpl; f_equal; auto.
Qed.

Lemma sum_insert l : forall i a v,
  l !! i = Some a -> sum (<[i := v]> l) = sum l - a + v.
Proof.
  induction l as [|b l IH]; intros [|i] a v Hi; simpl in Hi; try discriminate.
  - injection Hi as ->. change (<[0%nat := v]> (a :: l)) with (v :: l).
    rewrite !sum_cons. lia.
  - change (<[S i := v]> (b :: l)) with (b :: <[i := v]> l).
    rewrite !sum_cons, (IH i a v Hi). lia.
Qed.

Lemma elem_of_cell_agents c l j :
  j ∈ cell_agents c l -> exists a, l !! j = Some a /\ cell a = c.
Proof.
  unfold cell_agents. rewrite list_elem_of_filter. intros [Hc _].
  destruct (l !! j) as [a|]; [|discriminate].
  exists a. split; [reflexivity|]. simpl in Hc. congruence.
Qed.

Lemma lookup_map {A B} (f : A -> B) (l : list A) i :
  map f l !! i = f <$> l !! i.
Proof. revert i. induction l as [|a l IH]; intros [|i]; simpl; auto. Qed.

Lemma map_insert_same {A B} (f : A -> B) (l : list A) i a x :
  l !! i = Some a -> f x = f a -> map f (<[i := x]> l) = map f l.
Proof.
  intros Hi Hx. rewrite map_insert. apply list_insert_id.
  rewrite lookup_map, Hi, Hx. reflexivity.
Qed.

Lemma give_money_effect_holds m i :
  give_money_effect i (agents m) (agents (exec (give_money i) m)).
Proof.
  unfold exec, give_money. rewrite bind_run, get_agent_run.
  destruct (agents m !! i) as [me|] eqn:Hme; [|left; reflexivity].
  rewrite bind_run. unfold gets at 1.
  set (cellmates := filter (fun a => a <> i) (cell_agents (cell me) (agents m))).
  destruct (bool_decide (0 < length cellmates)%nat && bool_decide (0 < wealth me))
    eqn:Hcond.
  - apply andb_true_iff in Hcond as [_ Hw]. apply bool_decide_eq_true in Hw.
    rewrite bind_run.
    destruct (random_choice_run cellmates m) as [t [[other [Hin ->]] | ->]];
      [|left; reflexivity].
    apply list_elem_of_filter in Hin as [Hne Hin].
    apply elem_of_cell_agents in Hin as [o [Ho Hcell]].
    rewrite bind_run, update_agent_run. cbn [agents set_random]. rewrite Ho.
    rewrite bind_run, update_agent_run. cbn [agents set_agents].
    rewrite list_lookup_insert_ne, Hme by exact Hne.
    rewrite update_agent_run. cbn [agents set_agents].
    assert (Hi : (i < length (<[other := set_wealth (wealth o + 1) o]> (agents m)))%nat).
    { rewrite length_insert. eapply lookup_lt_Some, Hme. }
    rewrite list_lookup_insert_eq by exact Hi.
    cbn [snd agents set_agents].
    eapply (gift i _ _ other me o); try eassumption.
    rewrite list_insert_insert_eq, !map_insert. reflexivity.
  - rewrite update_agent_run, Hme. cbn [snd agents set_agents].
    left. eapply map_insert_same; [exact Hme|reflexivity].
Qed.

Lemma give_money_effect_sum i l l' :
  give_money_effect i l l' -> sum (map wealth l') = sum (map wealth l).
Proof.
  intros [->|other me o Hne Hme Ho _ _ ->]; [reflexivity|].
  rewrite (sum_insert _ i (wealth me)).
  - rewrite (sum_insert _ other (wealth o)); [lia|].
    rewrite lookup_map, Ho. reflexivity.
  - rewrite list_lookup_insert_ne, lookup_map, Hme by exact Hne. reflexivity.
Qed.

Lemma give_money_effect_nonneg i l l' :
  give_money_effect i l l' ->
  Forall (fun w => 0 <= w) (map wealth l) ->
  Forall (fun w => 0 <= w) (map wealth l').
Proof.
  intros [->|other me o Hne Hme Ho _ Hw ->] Hnn; [exact Hnn|].
  apply Forall_insert; [apply Forall_insert; [exact Hnn|]|lia].
  assert (Ho' : map wealth l !! other = Some (wealth o))
    by (rewrite lookup_map, Ho; reflexivity).
  apply (Forall_lookup_1 _ _ _ _ Hnn) in Ho'. lia.
Qed.

Lemma give_money_num_agents m i :
  num_agents (exec (give_money i) m) = num_agents m.
Proof.
  unfold exec, give_money. rewrite bind_run, get_agent_run.
  destruct (agents m !! i) as [me|]; [|reflexivity].
  rewrite bind_run. unfold gets at 1.
  set (cellmates := filter (fun a => a <> i) (cell_agents (cell me) (agents m))).
  destruct (bool_decide (0 < length cellmates)%nat && bool_decide (0 < wealth me)).
  - rewrite bind_run.
    destruct (random_choice_run cellmates m) as [t [[other [_ ->]] | ->]];
      [|reflexivity].
    rewrite bind_run, update_agent_run.
    destruct (agents (set_random t m) !! other); [|reflexivity].
    rewrite bind_run, update_agent_run.
    match goal with |- context [agents ?s !! i] => destruct (agents s !! i) end;
      [|reflexivity].
    rewrite update_agent_run.
    match goal with |- context [agents ?s !! i] => destruct (agents s !! i) end;
      reflexivity.
  - rewrite update_agent_run. destruct (agents m !! i); reflexivity.
Qed.

(** *** Properties kept by the code *)

Lemma keeps_ret R {A} (a : A) : keeps R (ret a).
Proof. intros m Hm. exact Hm. Qed.

Lemma keeps_raise R {A} e : keeps R (raise (A := A) e).
Proof. intros m Hm. exact Hm. Qed.

Lemma keeps_gets R {A} (f : MoneyModel -> A) : keeps R (gets f).
Proof. intros m Hm. exact Hm. Qed.

Lemma keeps_lift R {A} (r : Result A) : keeps R (lift r).
Proof. intros m Hm. exact Hm. Qed.

Lemma keeps_bind R {A B} (c : M MoneyModel A) (k : A -> M MoneyModel B) :
  keeps R c -> (forall a, keeps R (k a)) -> keeps R (c ≫= k).
Proof.
  intros Hc Hk m Hm. rewrite exec_bind.
  specialize (Hc m Hm). unfold exec in Hc.
  destruct (c m) as [[a|e] m']; simpl in Hc; [apply Hk|]; exact Hc.
Qed.

Lemma keeps_reraise R {A} e (c : M MoneyModel A) :
  keeps R c -> keeps R (reraise e c).
Proof.
  intros Hc m Hm. specialize (Hc m Hm). unfold exec, reraise in *.
  destruct (c m) as [[a|e'] m']; exact Hc.
Qed.

Lemma keeps_for_each R {A} (l : list A) (body : A -> M MoneyModel unit) :
  (forall x, keeps R (body x)) -> keeps R (for_each l body).
Proof.
  intros Hb. induction l as [|x l IH]; simpl.
  - apply keeps_ret.
  - apply (keeps_bind R (body x)); [apply Hb|intros _; exact IH].
Qed.

Lemma keeps_repeat_do R k (body : M MoneyModel unit) :
  keeps R body -> keeps R (repeat_do k body).
Proof.
  intros Hb. induction k as [|k IH]; simpl.
  - apply keeps_ret.
  - apply (keeps_bind R body); [exact Hb|intros _; exact IH].
Qed.

Section WealthProperties.

Variable R : MoneyModel -> Prop.
Hypothesis R_wealth : wealth_property R.

Lemma keeps_modify f :
  (forall m, wealths (f m) = wealths m /\ num_agents (f m) = num_agents m) ->
  keeps R (modify f).
Proof.
  intros Hf m Hm. destruct (Hf m) as [Hw Hn].
  exact (R_wealth m (f m) Hw Hn Hm).
Qed.

Lemma keeps_random_draw : keeps R random_draw.
Proof.
  intros m Hm. unfold exec.
  destruct (random_draw_run m) as [r [t ->]].
  apply (R_wealth m); [reflexivity|reflexivity|exact Hm].
Qed.

Lemma keeps_update_agent i f :
  (forall a, wealth (f a) = wealth a) -> keeps R (update_agent i f).
Proof.
  intros Hf m Hm. unfold exec. rewrite update_agent_run.
  destruct (agents m !! i) as [a|] eqn:Ha; [|exact Hm].
  apply (R_wealth m); [|reflexivity|exact Hm].
  unfold wealths. cbn [snd agents set_agents].
  eapply map_insert_same; [exact Ha|apply Hf].
Qed.

Lemma keeps_compute_gini : keeps R compute_gini.
Proof. intros m Hm. unfold exec. rewrite compute_gini_run. exact Hm. Qed.

Lemma keeps_collect : keeps R collect.
Proof.
  apply (keeps_bind R (reraise _ compute_gini));
    [apply keeps_reraise, keeps_compute_gini|].
  intros g. apply keeps_modify. intros m. split; reflexivity.
Qed.

Lemma keeps_agents_do method :
  (forall i, keeps R (method i)) -> keeps R (agents_do method).
Proof.
  intros Hm. apply (keeps_bind R (gets _)); [apply keeps_gets|].
  intros n. apply keeps_for_each, Hm.
Qed.

Variable select_random_cell : list Cell -> Cell -> nat -> Result Cell.
Variable shuffle : list nat -> list nat -> list nat * list nat.

Lemma keeps_move i : keeps R (move select_random_cell i).
Proof.
  apply (keeps_bind R (get_agent i)).
  { apply (keeps_bind R (gets _)); [apply keeps_gets|].
    intros l. destruct (l !! i); [apply keeps_ret|apply keeps_raise]. }
  intros me. apply (keeps_bind R random_draw); [apply keeps_random_draw|].
  intros r. apply (keeps_bind R (gets _)); [apply keeps_gets|].
  intros occupancy. apply (keeps_bind R (lift _)); [apply keeps_lift|].
  intros c. apply keeps_update_agent. reflexivity.
Qed.

Lemma keeps_agents_shuffle_do method :
  (forall i, keeps R (method i)) -> keeps R (agents_shuffle_do shuffle method).
Proof.
  intros Hm. apply (keeps_bind R (gets _)); [apply keeps_gets|].
  intros n. apply (keeps_bind R (gets _)); [apply keeps_gets|].
  intros t. destruct (shuffle t (seq 0 n)) as [order t'].
  apply (keeps_bind R (modify _)).
  - apply keeps_modify. intros m. split; reflexivity.
  - intros _. apply keeps_for_each, Hm.
Qed.

Hypothesis R_give_money : forall i, keeps R (give_money i).

Lemma keeps_step : keeps R (step select_random_cell shuffle).
Proof.
  apply (keeps_bind R collect); [apply keeps_collect|].
  intros _. apply (keeps_bind R (agents_shuffle_do shuffle _)).
  - apply keeps_agents_shuffle_do, keeps_move.
  - intros _. apply keeps_agents_do, R_give_money.
Qed.

Lemma keeps_run_model k : keeps R (run_model select_random_cell shuffle k).
Proof. apply keeps_repeat_do, keeps_step. Qed.

End WealthProperties.

Lemma total_wealth_property k : wealth_property (fun m => total_wealth m = k).
Proof. intros m m' Hw _ Hm. unfold total_wealth. rewrite Hw. exact Hm. Qed.

Lemma all_nonneg_property : wealth_property all_nonneg.
Proof. intros m m' Hw _ Hm. unfold all_nonneg. rewrite Hw. exact Hm. Qed.

Lemma give_money_total m i :
  total_wealth (exec (give_money i) m) = total_wealth m.
Proof. apply (give_money_effect_sum i), give_money_effect_holds. Qed.

Lemma give_money_nonneg i : keeps all_nonneg (give_money i).
Proof.
  intros m Hm. apply (give_money_effect_nonneg i (agents m)); [|exact Hm].
  apply give_money_effect_holds.
Qed.

(** *** The initial model *)

Lemma choices_length population k :
  forall t cells t', choices population k t = (Ok cells, t') -> length cells = k.
Proof.
  induction k as [|k IH]; intros t cells t' H; simpl in H.
  - unfold ret in H. injection H as <- _. reflexivity.
  - rewrite bind_run in H.
    destruct t as [|r t].
    + destruct (population !! (0 mod length population)%nat) as [c|];
        [|discriminate H].
      rewrite bind_run in H.
      destruct (choices population k []) as [[cs|e] t''] eqn:Hcs; [|discriminate H].
      unfold ret in H. injection H as <- _. simpl. f_equal. eapply IH, Hcs.
    + destruct (population !! (r mod length population)%nat) as [c|];
        [|discriminate H].
      rewrite bind_run in H.
      destruct (choices population k t) as [[cs|e] t''] eqn:Hcs; [|discriminate H].
      unfold ret in H. injection H as <- _. simpl. f_equal. eapply IH, Hcs.
Qed.

Lemma MoneyModel_init_spec n width height seed m :
  MoneyModel_init n width height seed = Ok m ->
  num_agents m = Z.of_nat n /\ wealths m = repeat 1 n.
Proof.
  unfold MoneyModel_init.
  destruct (choices _ n seed) as [[cells|e] t] eqn:Hc; [|discriminate].
  intros H. injection H as <-. apply choices_length in Hc.
  split; [reflexivity|]. unfold wealths. cbn [agents]. rewrite map_map. simpl.
  subst n. clear. induction cells; simpl; f_equal; auto.
Qed.

Lemma give_money_guard m i me :
  agents m !! i = Some me ->
  wealth me <= 0 \/ filter (fun a => a <> i) (cell_agents (cell me) (agents m)) = [] ->
  wealths (exec (give_money i) m) = wealths m.
Proof.
  intros Hme Hguard.
  unfold exec, give_money. rewrite bind_run, get_agent_run, Hme.
  rewrite bind_run. unfold gets at 1.
  set (cellmates := filter (fun a => a <> i) (cell_agents (cell me) (agents m))) in *.
  replace (bool_decide (0 < length cellmates)%nat && bool_decide (0 < wealth me))
    with false.
  - rewrite update_agent_run, Hme. unfold wealths. cbn [snd agents set_agents].
    eapply map_insert_same; [exact Hme|reflexivity].
  - symmetry. apply andb_false_iff. destruct Hguard as [Hw| ->].
    + right. apply bool_decide_eq_false. lia.
    + left. apply bool_decide_eq_false. simpl. lia.
Qed.

Lemma wealth_invariant_property : wealth_property wealth_invariant.
Proof.
  intros m m' Hw Hn (Ht & Hc & Hnn). unfold wealth_invariant, total_wealth, all_nonneg.
  rewrite Hw, Hn. auto.
Qed.

Lemma give_money_invariant i : keeps wealth_invariant (give_money i).
Proof.
  intros m (Ht & Hc & Hnn). split; [|split].
  - rewrite give_money_total, give_money_num_agents. exact Ht.
  - rewrite give_money_num_agents, Hc. f_equal. unfold wealths.
    destruct (give_money_effect_holds m i) as [->|? ? ? _ _ _ _ _ ->];
      [reflexivity|].
    rewrite !length_insert. reflexivity.
  - apply give_money_nonneg. exact Hnn.
Qed.

Lemma reachable_invariant select_random_cell shuffle m :
  reachable select_random_cell shuffle m -> wealth_invariant m.
Proof.
  induction 1 as [n width height seed m Hinit| | | |].
  - apply MoneyModel_init_spec in Hinit as [Hn Hw].
    unfold wealth_invariant, total_wealth, all_nonneg.
    rewrite Hw, Hn, sum_repeat, repeat_length.
    split; [lia|split; [reflexivity|]].
    apply Forall_forall. intros w Hin. apply list_elem_of_In, repeat_spec in Hin. lia.
  - apply keeps_collect; [apply wealth_invariant_property|assumption].
  - apply keeps_move; [apply wealth_invariant_property|assumption].
  - apply give_money_invariant; assumption.
  - apply keeps_step;
      [apply wealth_invariant_property|apply give_money_invariant|assumption].
Qed.

Lemma reachable_run_model select_random_cell shuffle k :
  forall m, reachable select_random_cell shuffle m ->
  reachable select_random_cell shuffle
    (exec (run_model select_random_cell shuffle k) m).
Proof.
  induction k as [|k IH]; intros m Hm; [exact Hm|].
  change (reachable select_random_cell shuffle
            (exec (step select_random_cell shuffle
                   ≫= fun _ => run_model select_random_cell shuffle k) m)).
  rewrite exec_bind.
  assert (Hs := reach_step select_random_cell shuffle m Hm). unfold exec in Hs.
  destruct (step select_random_cell shuffle m) as [[[]|e] m']; simpl in Hs.
  - apply IH, Hs.
  - exact Hs.
Qed.

(** In a simulation with at least one agent the data collector never meets
    the division by zero of [compute_gini], and the scores it stores lie
    in [[0, 1]]. *)
Lemma reachable_gini_defined select_random_cell shuffle m :
  reachable select_random_cell shuffle m ->
  0 < num_agents m ->
  exists v, eval compute_gini m = Ok v /\ (0 <= v)%Q /\ (v <= 1)%Q.
Proof.
  intros Hr Hn. apply reachable_invariant in Hr as (Ht & Hc & Hnn).
  rewrite eval_compute_gini. apply score_range.
  - exact Hc.
  - intros H0. rewrite H0 in Hc. simpl in Hc. lia.
  - exact Hnn.
  - unfold total_wealth in Ht. lia.
Qed.

(** There the score is a float as well: the division overflows no more
    than it divides by zero. *)
Lemma reachable_binary64_defined select_random_cell shuffle m :
  reachable select_random_cell shuffle m ->
  0 < num_agents m ->
  exists f, eval Binary64.compute_gini m = Ok f.
Proof.
  intros Hr Hn. apply reachable_invariant in Hr as (Ht & Hc & Hnn).
  apply binary64_compute_gini_returns.
  - unfold consistent. rewrite Hc. unfold wealths. rewrite length_map. reflexivity.
  - exact Hnn.
  - rewrite Ht. exact Hn.
Qed.

(** Four steps of the example model: the units move, their number stays. *)
Example example_run_wealths :
  wealths example_model = [1; 1; 1; 1; 1]
  /\ wealths (exec (run_model example_select_random_cell example_shuffle 4)
                   example_model) = [3; 1; 0; 0; 1].
Proof. split; vm_compute; reflexivity. Qed.

Example example_run_gini :
  model_vars (datacollector
    (exec (run_model example_select_random_cell example_shuffle 4) example_model))
  = [0 # 125; 40 # 125; 40 # 125; 40 # 125]%Q.
Proof. vm_compute. reflexivity. Qed.

(** The [give_money] of the other tutorial moves wealth as this one does. *)
Lemma give_money_plain_wealths m i :
  wealths (exec (give_money_plain i) m) = wealths (exec (give_money i) m).
Proof.
  unfold exec, give_money_plain, give_money. rewrite !bind_run, get_agent_run.
  destruct (agents m !! i) as [me|] eqn:Hme; [|reflexivity].
  rewrite !bind_run. unfold gets.
  set (cellmates := filter (fun a => a <> i) (cell_agents (cell me) (agents m))).
  replace (bool_decide (0 < wealth me) && bool_decide (cellmates <> []))
    with (bool_decide (0 < length cellmates)%nat && bool_decide (0 < wealth me)).
  2:{ rewrite andb_comm. f_equal. apply bool_decide_ext.
      destruct cellmates; simpl; split; intros H; (lia || congruence). }
  destruct (bool_decide (0 < length cellmates)%nat && bool_decide (0 < wealth me)).
  - rewrite !bind_run.
    destruct (random_choice_run cellmates m) as [t [[other [_ ->]] | ->]];
      [|reflexivity].
    rewrite !bind_run, !update_agent_run.
    destruct (agents (set_random t m) !! other) as [o|]; [|reflexivity].
    rewrite !bind_run, !update_agent_run.
    match goal with |- context [agents ?s !! i] =>
      destruct (agents s !! i) as [me'|] eqn:Hme' end; [|reflexivity].
    rewrite update_agent_run. cbn [agents set_agents].
    assert (Hi : (i < length (<[other := set_wealth (wealth o + 1) o]>
                                 (agents (set_random t m))))%nat)
      by (eapply lookup_lt_Some, Hme').
    rewrite list_lookup_insert_eq by exact Hi.
    unfold wealths. cbn [snd agents set_agents].
    rewrite list_insert_insert_eq, !map_insert. reflexivity.
  - rewrite update_agent_run, Hme. unfold wealths, ret. cbn [snd agents set_agents].
    symmetry. eapply map_insert_same; [exact Hme|reflexivity].
Qed.

(** ** The claims on the simulation *)

(** C8.  Total wealth is conserved.  A call of [give_money] changes nothing
    or moves exactly one unit from the caller to one cellmate, so it keeps
    the sum of all wealth; so does any number of steps of the model, from
    any state; and a model built for [n] agents holds [n] units at
    initialization and after any number of steps. *)
Theorem total_wealth_conserved
  (select_random_cell : list Cell -> Cell -> nat -> Result Cell)
  (shuffle : list nat -> list nat -> list nat * list nat) :
  (forall m i, give_money_effect i (agents m) (agents (exec (give_money i) m)))
  /\ (forall m i, total_wealth (exec (give_money i) m) = total_wealth m)
  /\ (forall m k,
        total_wealth (exec (run_model select_random_cell shuffle k) m)
        = total_wealth m)
  /\ (forall n width height seed m k,
        MoneyModel_init n width height seed = Ok m ->
        total_wealth m = Z.of_nat n
        /\ total_wealth (exec (run_model select_random_cell shuffle k) m)
           = Z.of_nat n).
Proof.
  assert (Hrun : forall m k,
            total_wealth (exec (run_model select_random_cell shuffle k) m)
            = total_wealth m).
  { intros m k.
    apply (keeps_run_model (fun m' => total_wealth m' = total_wealth m)).
    - apply total_wealth_property.
    - intros i m' Hm'. rewrite give_money_total. exact Hm'.
    - reflexivity. }
  split; [exact give_money_effect_holds|].
  split; [exact give_money_total|].
  split; [exact Hrun|].
  intros n width height seed m k Hinit.
  assert (Ht : total_wealth m = Z.of_nat n).
  { apply MoneyModel_init_spec in Hinit as [_ Hw].
    unfold total_wealth. rewrite Hw, sum_repeat. lia. }
  split; [exact Ht|]. rewrite Hrun. exact Ht.
Qed.

Lemma total_wealth_conserved_witness :
  total_wealth example_model = 5
  /\ total_wealth
       (exec (run_model example_select_random_cell example_shuffle 4) example_model)
     = 5.
Proof.
  refine (proj2 (proj2 (proj2
    (total_wealth_conserved example_select_random_cell example_shuffle)))
    5%nat 2 2 example_seed example_model 4%nat _).
  reflexivity.
Defined.

(** C9.  [compute_gini] has no side effect: the model after the call is the
    model before it, agents, generator and collected data included, whether
    it returns or raises; and its result is a function of the wealth
    snapshot and of the agent count alone. *)
Theorem compute_gini_pure :
  (forall m, exec compute_gini m = m)
  /\ (forall m1 m2,
        num_agents m1 = num_agents m2 ->
        wealths m1 = wealths m2 ->
        eval compute_gini m1 = eval compute_gini m2).
Proof.
  split.
  - intros m. unfold exec. rewrite compute_gini_run. reflexivity.
  - intros m1 m2 Hn Hw. rewrite !eval_compute_gini, Hn, Hw. reflexivity.
Qed.

Lemma compute_gini_pure_witness :
  eval compute_gini example_model = eval compute_gini (snapshot [1; 1; 1; 1; 1]).
Proof.
  apply (proj2 compute_gini_pure example_model (snapshot [1; 1; 1; 1; 1])).
  - reflexivity.
  - reflexivity.
Defined.

(** C10.  No agent's wealth ever becomes negative.  [give_money] gives
    nothing when the caller's wealth is not strictly positive or when it
    has no cellmate, and it keeps all wealth non-negative; hence in every
    state of a simulation every agent's wealth is non-negative. *)
Theorem wealth_never_negative
  (select_random_cell : list Cell -> Cell -> nat -> Result Cell)
  (shuffle : list nat -> list nat -> list nat * list nat) :
  (forall m i me,
     agents m !! i = Some me ->
     wealth me <= 0
     \/ filter (fun a => a <> i) (cell_agents (cell me) (agents m)) = [] ->
     wealths (exec (give_money i) m) = wealths m)
  /\ (forall m i, all_nonneg m -> all_nonneg (exec (give_money i) m))
  /\ (forall m, reachable select_random_cell shuffle m -> all_nonneg m).
Proof.
  split; [exact give_money_guard|].
  split; [intros m i; apply give_money_nonneg|].
  intros m Hm. apply (reachable_invariant _ _ m Hm).
Qed.

Lemma wealth_never_negative_witness :
  all_nonneg
    (exec (run_model example_select_random_cell example_shuffle 4) example_model).
Proof.
  apply (proj2 (proj2
    (wealth_never_negative example_select_random_cell example_shuffle))).
  apply reachable_run_model.
  apply (reach_init _ _ 5%nat 2 2 example_seed). reflexivity.
Defined.

(** * Further properties of the code *)

(** ** [compute_gini] and the Gini coefficient *)

Lemma sum_map_add {A} (f g : A -> Z) l :
  sum (map (fun a => f a + g a) l) = sum (map f l) + sum (map g l).
Proof.
  induction l as [|a l IH]; [reflexivity|].
  cbn [map]. rewrite !sum_cons, IH. lia.
Qed.

Lemma gap_to_cons a b l : gap_to a (b :: l) = Z.abs (a - b) + gap_to a l.
Proof. reflexivity. Qed.

Lemma gap_to_nonneg a l : 0 <= gap_to a l.
Proof.
  induction l as [|b l IH]; [reflexivity|]. rewrite gap_to_cons. lia.
Qed.

Lemma gap_to_Permutation a l1 l2 : l1 ≡ₚ l2 -> gap_to a l1 = gap_to a l2.
Proof. intros Hp. apply sum_Permutation, Permutation_map, Hp. Qed.

Lemma gap_to_above a l :
  Forall (Z.le a) l -> gap_to a l = sum l - a * Z.of_nat (length l).
Proof.
  induction 1 as [|b l Hb Hl IH].
  - change (gap_to a []) with 0. change (sum []) with 0. cbn [length]. lia.
  - rewrite gap_to_cons, sum_cons, IH. cbn [length]. lia.
Qed.

Lemma gap_to_zero a l : gap_to a l = 0 <-> Forall (fun b => b = a) l.
Proof.
  induction l as [|b l IH].
  - split; [constructor|reflexivity].
  - rewrite gap_to_cons. assert (H := gap_to_nonneg a l). split.
    + intros H0. constructor; [lia|]. apply IH. lia.
    + intros Hall. inversion Hall as [|? ? Hb Hl]; subst.
      apply IH in Hl. lia.
Qed.

Lemma pair_gap_nonneg l : 0 <= pair_gap l.
Proof.
  induction l as [|a l IH]; [reflexivity|].
  cbn [pair_gap]. assert (H := gap_to_nonneg a l). lia.
Qed.

Lemma pair_gap_Permutation l1 l2 : l1 ≡ₚ l2 -> pair_gap l1 = pair_gap l2.
Proof.
  induction 1 as [|a l1 l2 Hp IH|a b l|l1 l2 l3 H12 IH12 H23 IH23].
  - reflexivity.
  - cbn [pair_gap]. rewrite IH, (gap_to_Permutation a l1 l2 Hp). reflexivity.
  - cbn [pair_gap]. rewrite !gap_to_cons. lia.
  - congruence.
Qed.

Lemma abs_diff_sum_pair_gap l : abs_diff_sum l = 2 * pair_gap l.
Proof.
  unfold abs_diff_sum. induction l as [|a l IH]; [reflexivity|].
  cbn [map pair_gap]. rewrite sum_cons, gap_to_cons.
  replace (map (fun c => gap_to c (a :: l)) l)
    with (map (fun c => Z.abs (c - a) + gap_to c l) l) by reflexivity.
  rewrite sum_map_add, IH.
  replace (sum (map (fun c => Z.abs (c - a)) l)) with (gap_to a l).
  - lia.
  - unfold gap_to. f_equal. apply map_ext. intros c. lia.
Qed.

(** On an ascending list the numerator of the score over [n * S] is the
    sum of the pairwise gaps. *)
Lemma weighted_from_pair_gap x :
  StronglySorted Z.le x ->
  forall n i, n = i + Z.of_nat (length x) ->
  (Z.of_nat (length x) + 1) * sum x - 2 * weighted_from n i x = pair_gap x.
Proof.
  induction 1 as [|a x Hx IH Ha]; intros n i Hn.
  - rewrite weighted_from_nil. reflexivity.
  - rewrite weighted_from_cons, sum_cons. cbn [pair_gap]. simpl length in *.
    specialize (IH n (i + 1)). rewrite (gap_to_above a x Ha). nia.
Qed.

Lemma score_numerator_pair_gap n l :
  n = Z.of_nat (length l) ->
  (n + 1) * sum (sorted l) - 2 * weighted_sum n (sorted l) = pair_gap l.
Proof.
  intros Hn. rewrite weighted_sum_from, <- (pair_gap_Permutation _ _ (sorted_Permutation l)).
  rewrite <- (weighted_from_pair_gap (sorted l)) with (n := n) (i := 0).
  - rewrite sorted_length. lia.
  - apply Sorted_StronglySorted; [exact Z.le_trans|apply sorted_Sorted].
  - rewrite sorted_length. lia.
Qed.

Lemma score_of_pair_gap n l :
  n = Z.of_nat (length l) -> l <> [] -> sum l <> 0 ->
  exists v, score_of n (sorted l) = Ok v
            /\ (v == inject_Z (pair_gap l) / inject_Z (n * sum l))%Q.
Proof.
  intros Hn Hne Hs.
  assert (Hn0 : n <> 0) by (destruct l; [contradiction|simpl in Hn; lia]).
  rewrite score_of_ok by (rewrite ?sum_sorted; assumption).
  eexists. split; [reflexivity|].
  rewrite score_closed by (rewrite ?sum_sorted; assumption).
  rewrite score_numerator_pair_gap by exact Hn. rewrite sum_sorted. reflexivity.
Qed.

Lemma pair_gap_zero l : pair_gap l = 0 <-> exists w, Forall (fun a => a = w) l.
Proof.
  induction l as [|a l IH].
  - split; [exists 0; constructor|reflexivity].
  - cbn [pair_gap].
    assert (H1 := gap_to_nonneg a l). assert (H2 := pair_gap_nonneg l). split.
    + intros H0. exists a. constructor; [reflexivity|]. apply gap_to_zero. lia.
    + intros [w Hw]. inversion Hw as [|? ? Ha Hl]; subst.
      assert (Hg : gap_to w l = 0) by (apply gap_to_zero; exact Hl).
      assert (Hp : pair_gap l = 0) by (apply IH; exists w; exact Hl).
      lia.
Qed.

Lemma weighted_from_tight x :
  Forall (fun w => 0 <= w) x ->
  forall n i, n = i + Z.of_nat (length x) ->
  weighted_from n i x = sum x -> x <> [] ->
  x = repeat 0 (length x - 1) ++ [sum x].
Proof.
  induction 1 as [|a t Ha Ht IH]; intros n i Hn HW Hne; [contradiction|].
  destruct t as [|b t'].
  - change (repeat 0 (length [a] - 1) ++ [sum [a]]) with [sum [a]].
    rewrite sum_cons. change (sum []) with 0. f_equal. lia.
  - rewrite weighted_from_cons, sum_cons in HW.
    assert (Hlow := weighted_from_lower n (b :: t') Ht (i + 1) ltac:(simpl length in *; lia)).
    simpl length in Hn.
    assert (Ha0 : a = 0) by nia. subst a.
    assert (HW' : weighted_from n (i + 1) (b :: t') = sum (b :: t')) by lia.
    specialize (IH n (i + 1) ltac:(simpl length; lia) HW' ltac:(discriminate)).
    rewrite sum_cons, Z.add_0_l.
    replace (Nat.sub (length (0 :: b :: t')) 1)
      with (S (Nat.sub (length (b :: t')) 1)) by (simpl; lia).
    cbn [repeat app]. f_equal. exact IH.
Qed.

(** ** Extras on [compute_gini] *)


Lemma compute_gini_returns m :
  num_agents m * total_wealth m <> 0 ->
  exists v, compute_gini m = (Ok v, m).
Proof.
  intros H. rewrite compute_gini_run. unfold score_of, gini_B, truediv.
  unfold total_wealth in H. rewrite sum_sorted.
  destruct (decide (num_agents m * sum (wealths m) = 0)); [contradiction|].
  destruct (decide (num_agents m = 0)); [nia|]. eexists. reflexivity.
Qed.

(** X1.  The exceptions of [compute_gini] in the arithmetic of the code.
    It raises [ZeroDivisionError] exactly when [num_agents * sum(wealth)]
    is zero, for instance on a model without agents; the only other
    exception it can raise is the [OverflowError] of a quotient too large
    for a float; on a well-formed model whose agents hold non-negative
    wealth, not all zero, it raises nothing and returns a float.  Either
    way the model is left as it was. *)
Theorem compute_gini_exceptions (m : MoneyModel) :
  (eval Binary64.compute_gini m = Raise ZeroDivisionError
   <-> num_agents m * total_wealth m = 0)
  /\ (forall e, eval Binary64.compute_gini m = Raise e ->
        e = ZeroDivisionError \/ e = OverflowError)
  /\ (consistent m -> all_nonneg m -> 0 < total_wealth m ->
      exists f, eval Binary64.compute_gini m = Ok f)
  /\ exec Binary64.compute_gini m = m.
Proof.
  rewrite binary64_eval. unfold total_wealth. split; [|split; [|split]].
  - split.
    + intros H. apply binary64_score_raises in H as [[_ H]|[H _]];
        [|discriminate H].
      rewrite sum_sorted in H. exact H.
    + intros H. unfold Binary64.score_of. rewrite sum_sorted, H.
      rewrite binary64_truediv_zero. reflexivity.
  - intros e H. apply binary64_score_raises in H as [[-> _]|[-> _]]; auto.
  - intros Hc Hnn Hpos. rewrite <- binary64_eval.
    apply binary64_compute_gini_returns; assumption.
  - apply binary64_exec.
Qed.

Lemma compute_gini_exceptions_witness :
  exists f, eval Binary64.compute_gini (snapshot [2; 0; 1]) = Ok f.
Proof.
  apply (proj1 (proj2 (proj2 (compute_gini_exceptions (snapshot [2; 0; 1]))))).
  - apply consistent_snapshot.
  - unfold all_nonneg. rewrite wealths_snapshot. repeat constructor; lia.
  - reflexivity.
Defined.

(** The two exceptions at work: no agent, no wealth, and a quotient of
    about [-5e399]. *)
Example binary64_exceptions :
  eval Binary64.compute_gini (snapshot []) = Raise ZeroDivisionError
  /\ eval Binary64.compute_gini (snapshot [0; 0; 0]) = Raise ZeroDivisionError
  /\ eval Binary64.compute_gini (snapshot [- 10 ^ 400; 10 ^ 400 + 1])
     = Raise OverflowError.
Proof. repeat split; vm_compute; reflexivity. Qed.

(** X2.  The numerator of the Gini coefficient in [compute_gini].  With
    [W] the integer [sum(xi * (n - i) ...)] that the code divides, [n] the
    count of agents and [S] their total wealth, [2 * ((n + 1) * S - 2 * W)]
    is the sum of [|x_i - x_j|] over all pairs of agents; so the number
    that the expression [1 + 1/n - 2 * W / (n * S)] stands for before any
    rounding is the Gini coefficient. *)
Theorem gini_coefficient_numerator (m : MoneyModel) :
  consistent m ->
  let n := num_agents m in
  let S := total_wealth m in
  let W := weighted_sum n (sorted (wealths m)) in
  2 * ((n + 1) * S - 2 * W) = abs_diff_sum (wealths m)
  /\ (wealths m <> [] -> S <> 0 ->
      (1 + 1 / inject_Z n - 2 * (inject_Z W / inject_Z (n * S))
       == gini_coefficient (wealths m))%Q).
Proof.
  intros Hc. cbv zeta. unfold total_wealth.
  assert (Hlen := consistent_length m Hc).
  assert (Hnum := score_numerator_pair_gap (num_agents m) (wealths m) Hlen).
  rewrite sum_sorted in Hnum.
  split.
  - rewrite abs_diff_sum_pair_gap, Hnum. reflexivity.
  - intros Hne Hs.
    assert (Hn := consistent_nonzero m Hc Hne).
    unfold gini_coefficient. rewrite abs_diff_sum_pair_gap, <- Hlen, <- Hnum.
    assert (Hn' := inject_Z_nonzero (num_agents m) Hn).
    assert (Hs' := inject_Z_nonzero (sum (wealths m)) Hs).
    unfold Z.sub.
    repeat (rewrite ?inject_Z_mult, ?inject_Z_plus, ?inject_Z_opp).
    change (inject_Z 2) with 2%Q. change (inject_Z 1) with 1%Q.
    field. split; assumption.
Qed.

Lemma gini_coefficient_numerator_witness :
  2 * ((3 + 1) * 4 - 2 * weighted_sum 3 (sorted [3; 0; 1])) = abs_diff_sum [3; 0; 1].
Proof.
  exact (proj1 (gini_coefficient_numerator (snapshot [3; 0; 1])
                  (consistent_snapshot [3; 0; 1]))).
Defined.

(** On [[3, 0, 1]] the Gini coefficient is [1/2], and the float that the
    code returns is the one just below the float [0.5]. *)
Example binary64_gini_rounding :
  Qred (gini_coefficient [3; 0; 1]) = (1 # 2)%Q
  /\ eval Binary64.compute_gini (snapshot [3; 0; 1])
     = Ok (S754_finite false 9007199254740990 (-54))
  /\ Binary64.round_quotient 1 2 = S754_finite false 4503599627370496 (-53).
Proof. repeat split; vm_compute; reflexivity. Qed.

(** X3.  The integer [W] that [compute_gini] divides is at most
    [(n + 1) * S / 2], where the score before rounding is [0], and it
    reaches that bound if and only if all agents hold the same wealth. *)
Theorem gini_numerator_maximum (m : MoneyModel) :
  consistent m ->
  let n := num_agents m in
  let S := total_wealth m in
  let W := weighted_sum n (sorted (wealths m)) in
  2 * W <= (n + 1) * S
  /\ (2 * W = (n + 1) * S <-> exists w, Forall (fun a => a = w) (wealths m)).
Proof.
  intros Hc. cbv zeta. unfold total_wealth.
  assert (Hlen := consistent_length m Hc).
  assert (Hnum := score_numerator_pair_gap (num_agents m) (wealths m) Hlen).
  rewrite sum_sorted in Hnum.
  assert (H0 := pair_gap_nonneg (wealths m)).
  split; [lia|]. rewrite <- pair_gap_zero. lia.
Qed.

Lemma gini_numerator_maximum_witness :
  2 * weighted_sum 3 (sorted [2; 2; 3]) <= (3 + 1) * 7
  /\ (2 * weighted_sum 3 (sorted [2; 2; 3]) = (3 + 1) * 7
      <-> exists w, Forall (fun a => a = w) [2; 2; 3]).
Proof.
  exact (gini_numerator_maximum (snapshot [2; 2; 3]) (consistent_snapshot [2; 2; 3])).
Defined.

(** X4.  On non-negative wealth the integer [W] that [compute_gini]
    divides is at least the total wealth [S], where the score before
    rounding is [1 - 1/n], and it is [S] if and only if one agent holds
    everything. *)
Theorem gini_numerator_minimum (m : MoneyModel) :
  consistent m ->
  wealths m <> [] ->
  all_nonneg m ->
  let n := num_agents m in
  let S := total_wealth m in
  let W := weighted_sum n (sorted (wealths m)) in
  S <= W
  /\ (W = S <-> wealths m ≡ₚ S :: repeat 0 (length (wealths m) - 1)).
Proof.
  intros Hc Hne Hnn. cbv zeta. unfold total_wealth.
  assert (Hlen := consistent_length m Hc).
  set (x := sorted (wealths m)).
  assert (Hs : sum x = sum (wealths m)) by apply sum_sorted.
  assert (Hl : length x = length (wealths m)) by apply sorted_length.
  assert (Hxnn : Forall (fun w => 0 <= w) x).
  { apply (Permutation_Forall (x := wealths m)); [|exact Hnn].
    symmetry. apply sorted_Permutation. }
  rewrite weighted_sum_from, <- Hs. split.
  - apply weighted_from_lower; [exact Hxnn|lia].
  - split.
    + intros HW.
      assert (Hx : x = repeat 0 (length x - 1) ++ [sum x]).
      { apply (weighted_from_tight x Hxnn (num_agents m) 0); [lia|exact HW|].
        intros H0. rewrite H0 in Hl. destruct (wealths m); [contradiction|discriminate]. }
      rewrite <- (sorted_Permutation (wealths m)). fold x.
      rewrite Hx at 1. rewrite Hl. symmetry. apply Permutation_cons_append.
    + intros Hp.
      assert (Hx : x = repeat 0 (length (wealths m) - 1) ++ [sum x]).
      { apply sorted_unique. split.
        - apply Sorted_one_holder. rewrite Hs. apply sum_nonneg, Hnn.
        - symmetry. etransitivity; [exact Hp|]. apply Permutation_cons_append. }
      rewrite Hx at 1. apply weighted_from_one_holder.
      destruct (wealths m); [contradiction|simpl length in *; lia].
Qed.

Lemma gini_numerator_minimum_witness :
  5 <= weighted_sum 3 (sorted [0; 5; 0])
  /\ (weighted_sum 3 (sorted [0; 5; 0]) = 5
      <-> [0; 5; 0] ≡ₚ 5 :: repeat 0 (length [0; 5; 0] - 1)).
Proof.
  refine (gini_numerator_minimum (snapshot [0; 5; 0]) (consistent_snapshot [0; 5; 0]) _ _).
  - rewrite wealths_snapshot. discriminate.
  - unfold all_nonneg. rewrite wealths_snapshot. repeat constructor; lia.
Defined.

(** ** Extras on the agents *)

Lemma random_choice_nonempty {A} (seq : list A) m :
  seq <> [] ->
  exists t x, x ∈ seq /\ random_choice seq m = (Ok x, set_random t m).
Proof.
  intros Hne. unfold random_choice. rewrite bind_run.
  destruct (random_draw_run m) as [r [t ->]]. exists t.
  assert (Hlt : (r mod length seq < length seq)%nat).
  { apply Nat.mod_upper_bound. destruct seq; [contradiction|simpl; lia]. }
  destruct (lookup_lt_is_Some_2 seq _ Hlt) as [x Hx].
  exists x. rewrite Hx. split; [|reflexivity]. eapply list_elem_of_lookup_2, Hx.
Qed.

Lemma give_money_run_gift (m : MoneyModel) (i : nat) (me : MoneyAgent) :
  agents m !! i = Some me ->
  filter (fun a => a <> i) (cell_agents (cell me) (agents m)) <> [] ->
  0 < wealth me ->
  exists other o t,
    other <> i
    /\ agents m !! other = Some o
    /\ cell o = cell me
    /\ give_money i m
       = (Ok tt,
          set_agents
            (<[i := {| cell := cell me; wealth := wealth me - 1;
                       steps_not_given := 0 |}]>
               (<[other := set_wealth (wealth o + 1) o]> (agents m)))
            (set_random t m)).
Proof.
  intros Hme Hmates Hw.
  unfold give_money. rewrite bind_run, get_agent_run, Hme.
  rewrite bind_run. unfold gets at 1.
  set (cellmates := filter (fun a => a <> i) (cell_agents (cell me) (agents m))) in *.
  replace (bool_decide (0 < length cellmates)%nat && bool_decide (0 < wealth me))
    with true.
  2:{ symmetry. apply andb_true_iff. split; apply bool_decide_eq_true; [|exact Hw].
      destruct cellmates; [contradiction|simpl; lia]. }
  rewrite bind_run.
  destruct (random_choice_nonempty cellmates m Hmates) as (t & other & Hin & ->).
  apply list_elem_of_filter in Hin as [Hne Hin].
  apply elem_of_cell_agents in Hin as [o [Ho Hcell]].
  exists other, o, t.
  split; [exact Hne|]. split; [exact Ho|]. split; [exact Hcell|].
  rewrite bind_run, update_agent_run. cbn [agents set_random]. rewrite Ho.
  rewrite bind_run, update_agent_run. cbn [agents set_agents].
  rewrite list_lookup_insert_ne, Hme by exact Hne.
  rewrite update_agent_run. cbn [agents set_agents].
  assert (Hi : (i < length (<[other := set_wealth (wealth o + 1) o]> (agents m)))%nat).
  { rewrite length_insert. eapply lookup_lt_Some, Hme. }
  rewrite list_lookup_insert_eq by exact Hi.
  unfold set_agents. cbn [num_agents agents random datacollector running].
  rewrite list_insert_insert_eq. reflexivity.
Qed.

(** X5.  An agent with positive wealth and at least one cellmate gives:
    [give_money] returns, one unit passes from the caller to an agent
    other than itself that stands on the same cell, the caller's
    [steps_not_given] is reset to [0], and nothing else changes but the
    draws that the generator has left. *)
Theorem give_money_gives (m : MoneyModel) (i : nat) (me : MoneyAgent) :
  agents m !! i = Some me ->
  filter (fun a => a <> i) (cell_agents (cell me) (agents m)) <> [] ->
  0 < wealth me ->
  exists other o t,
    other <> i
    /\ agents m !! other = Some o
    /\ cell o = cell me
    /\ give_money i m
       = (Ok tt,
          set_agents
            (<[i := {| cell := cell me; wealth := wealth me - 1;
                       steps_not_given := 0 |}]>
               (<[other := set_wealth (wealth o + 1) o]> (agents m)))
            (set_random t m)).
Proof. apply give_money_run_gift. Qed.

Lemma give_money_gives_witness :
  exists other o t,
    other <> 1%nat
    /\ agents example_model !! other = Some o
    /\ cell o = cell (MoneyAgent_init (0, 0))
    /\ give_money 1 example_model
       = (Ok tt,
          set_agents
            (<[1%nat := {| cell := cell (MoneyAgent_init (0, 0));
                           wealth := wealth (MoneyAgent_init (0, 0)) - 1;
                           steps_not_given := 0 |}]>
               (<[other := set_wealth (wealth o + 1) o]> (agents example_model)))
            (set_random t example_model)).
Proof.
  apply (give_money_gives example_model 1 (MoneyAgent_init (0, 0))).
  - reflexivity.
  - vm_compute. discriminate.
  - reflexivity.
Defined.

Lemma give_money_run_none (m : MoneyModel) (i : nat) (me : MoneyAgent) :
  agents m !! i = Some me ->
  wealth me <= 0
  \/ filter (fun a => a <> i) (cell_agents (cell me) (agents m)) = [] ->
  give_money i m
  = (Ok tt,
     set_agents
       (<[i := set_steps_not_given (steps_not_given me + 1) me]> (agents m)) m).
Proof.
  intros Hme Hguard.
  unfold give_money. rewrite bind_run, get_agent_run, Hme.
  rewrite bind_run. unfold gets at 1.
  set (cellmates := filter (fun a => a <> i) (cell_agents (cell me) (agents m))) in *.
  replace (bool_decide (0 < length cellmates)%nat && bool_decide (0 < wealth me))
    with false.
  - rewrite update_agent_run, Hme. reflexivity.
  - symmetry. apply andb_false_iff. destruct Hguard as [Hw| ->].
    + right. apply bool_decide_eq_false. lia.
    + left. apply bool_decide_eq_false. simpl. lia.
Qed.

(** X6.  An agent without wealth, or alone on its cell, gives nothing:
    [give_money] returns, adds one to the caller's [steps_not_given] and
    changes nothing else, not even the generator. *)
Theorem give_money_keeps (m : MoneyModel) (i : nat) (me : MoneyAgent) :
  agents m !! i = Some me ->
  wealth me <= 0
  \/ filter (fun a => a <> i) (cell_agents (cell me) (agents m)) = [] ->
  give_money i m
  = (Ok tt,
     set_agents
       (<[i := set_steps_not_given (steps_not_given me + 1) me]> (agents m)) m).
Proof. apply give_money_run_none. Qed.

Lemma give_money_keeps_witness :
  give_money 0 (snapshot [5]%Z)
  = (Ok tt,
     set_agents
       (<[0%nat := set_steps_not_given (steps_not_given (mkAgent (0, 0) 5 0) + 1)
                     (mkAgent (0, 0) 5 0)]> (agents (snapshot [5]%Z)))
       (snapshot [5]%Z)).
Proof.
  apply (give_money_keeps (snapshot [5]%Z) 0 (mkAgent (0, 0) 5 0)).
  - reflexivity.
  - right. reflexivity.
Defined.

Lemma move_run
  (select_random_cell : list Cell -> Cell -> nat -> Result Cell) m i :
  exists r t,
    move select_random_cell i m =
    match agents m !! i with
    | None => (Raise FrameworkError, m)
    | Some me =>
        match select_random_cell (map cell (agents m)) (cell me) r with
        | Ok c =>
            (Ok tt, set_agents (<[i := set_cell c me]> (agents m)) (set_random t m))
        | Raise e => (Raise e, set_random t m)
        end
    end.
Proof.
  destruct (random_draw_run m) as [r [t Hd]]. exists r, t.
  unfold move. rewrite bind_run, get_agent_run.
  destruct (agents m !! i) as [me|] eqn:Hme; [|reflexivity].
  rewrite bind_run, Hd. rewrite bind_run. unfold gets at 1.
  rewrite bind_run. unfold lift at 1. cbn [agents set_random].
  destruct (select_random_cell _ _ r) as [c|e]; [|reflexivity].
  rewrite update_agent_run. cbn [agents set_random]. rewrite Hme. reflexivity.
Qed.

(** X7.  [move] leaves all but the cell of the mover and the draws left
    as they were: every agent keeps its wealth and its [steps_not_given],
    the other agents keep their cell, and the count of agents, the
    collected data and [running] stay. *)
Theorem move_frame
  (select_random_cell : list Cell -> Cell -> nat -> Result Cell)
  (m : MoneyModel) (i : nat) :
  let m' := exec (move select_random_cell i) m in
  map wealth (agents m') = map wealth (agents m)
  /\ map steps_not_given (agents m') = map steps_not_given (agents m)
  /\ (forall j, j <> i -> agents m' !! j = agents m !! j)
  /\ num_agents m' = num_agents m
  /\ datacollector m' = datacollector m
  /\ running m' = running m.
Proof.
  destruct (move_run select_random_cell m i) as (r & t & Hrun).
  unfold exec. cbv zeta. rewrite Hrun.
  destruct (agents m !! i) as [me|] eqn:Hme.
  2:{ cbn. repeat split; reflexivity. }
  destruct (select_random_cell (map cell (agents m)) (cell me) r) as [c|e].
  - cbn [fst snd agents set_agents num_agents datacollector running set_random].
    repeat split.
    + eapply map_insert_same; [exact Hme|reflexivity].
    + eapply map_insert_same; [exact Hme|reflexivity].
    + intros j Hj. apply list_lookup_insert_ne. congruence.
  - cbn. repeat split; reflexivity.
Qed.

Lemma move_frame_witness :
  agents (exec (move example_select_random_cell 0) example_model) !! 1%nat
  = agents example_model !! 1%nat.
Proof.
  apply (move_frame example_select_random_cell example_model 0).
  discriminate.
Defined.

(** ** Properties kept by the agents' methods *)

Section UpdateProperties.

Variable R : MoneyModel -> Prop.
Hypothesis R_random : forall m t, R m -> R (set_random t m).

Lemma kept_random_draw : keeps R random_draw.
Proof.
  intros m Hm. unfold exec.
  destruct (random_draw_run m) as [r [t ->]]. apply R_random, Hm.
Qed.

Lemma kept_random_choice {A} (seq : list A) : keeps R (random_choice seq).
Proof.
  apply (keeps_bind R random_draw); [apply kept_random_draw|].
  intros r. destruct (seq !! _); [apply keeps_ret|apply keeps_raise].
Qed.

Lemma kept_get_agent i : keeps R (get_agent i).
Proof.
  apply (keeps_bind R (gets _)); [apply keeps_gets|].
  intros l. destruct (l !! i); [apply keeps_ret|apply keeps_raise].
Qed.

Lemma kept_update_agent i f : update_ok R f -> keeps R (update_agent i f).
Proof.
  intros Hf m Hm. unfold exec. rewrite update_agent_run.
  destruct (agents m !! i) as [a|] eqn:Ha; [|exact Hm].
  apply Hf; assumption.
Qed.

Lemma kept_agents_do method :
  (forall i, keeps R (method i)) -> keeps R (agents_do method).
Proof.
  intros Hm. apply (keeps_bind R (gets _)); [apply keeps_gets|].
  intros n. apply keeps_for_each, Hm.
Qed.

Lemma kept_agents_shuffle_do shuffle method :
  (forall i, keeps R (method i)) -> keeps R (agents_shuffle_do shuffle method).
Proof.
  intros Hm. apply (keeps_bind R (gets _)); [apply keeps_gets|].
  intros n. apply (keeps_bind R (gets _)); [apply keeps_gets|].
  intros t. destruct (shuffle t (seq 0 n)) as [order t'].
  apply (keeps_bind R (modify _)).
  - intros m Hmm. apply R_random, Hmm.
  - intros _. apply keeps_for_each, Hm.
Qed.

Lemma kept_move select_random_cell i :
  (forall c, update_ok R (set_cell c)) -> keeps R (move select_random_cell i).
Proof.
  intros Hc. apply (keeps_bind R (get_agent i)); [apply kept_get_agent|].
  intros me. apply (keeps_bind R random_draw); [apply kept_random_draw|].
  intros r. apply (keeps_bind R (gets _)); [apply keeps_gets|].
  intros occupancy. apply (keeps_bind R (lift _)); [apply keeps_lift|].
  intros c. apply kept_update_agent, Hc.
Qed.

Hypothesis R_plus : update_ok R (fun a => set_wealth (wealth a + 1) a).
Hypothesis R_minus : update_ok R (fun a => set_wealth (wealth a - 1) a).

Lemma kept_give_money_plain i : keeps R (give_money_plain i).
Proof.
  apply (keeps_bind R (get_agent i)); [apply kept_get_agent|].
  intros me. apply (keeps_bind R (gets _)); [apply keeps_gets|].
  intros here. cbv zeta. destruct (_ && _).
  - apply (keeps_bind R (random_choice _)); [apply kept_random_choice|].
    intros other. apply (keeps_bind R (update_agent _ _));
      [apply kept_update_agent, R_plus|].
    intros _. apply kept_update_agent, R_minus.
  - apply keeps_ret.
Qed.

Hypothesis R_reset : update_ok R (set_steps_not_given 0).
Hypothesis R_count :
  update_ok R (fun a => set_steps_not_given (steps_not_given a + 1) a).

Lemma kept_give_money i : keeps R (give_money i).
Proof.
  apply (keeps_bind R (get_agent i)); [apply kept_get_agent|].
  intros me. apply (keeps_bind R (gets _)); [apply keeps_gets|].
  intros here. cbv zeta. destruct (_ && _).
  - apply (keeps_bind R (random_choice _)); [apply kept_random_choice|].
    intros other. apply (keeps_bind R (update_agent _ _));
      [apply kept_update_agent, R_plus|].
    intros _. apply (keeps_bind R (update_agent _ _));
      [apply kept_update_agent, R_minus|].
    intros _. apply kept_update_agent, R_reset.
  - apply kept_update_agent, R_count.
Qed.

End UpdateProperties.

Lemma keeps_and (R1 R2 : MoneyModel -> Prop) {A} (c : M MoneyModel A) :
  keeps R1 c -> keeps R2 c -> keeps (fun m => R1 m /\ R2 m) c.
Proof. intros H1 H2 m [Hm1 Hm2]. split; [apply H1|apply H2]; assumption. Qed.

Lemma update_ok_pointwise (P : MoneyAgent -> Prop) f :
  (forall a, P a -> P (f a)) ->
  update_ok (fun m => Forall P (agents m)) f.
Proof.
  intros Hf m i a Hm Ha. cbn [agents set_agents].
  apply Forall_insert; [exact Hm|]. apply Hf.
  eapply Forall_lookup_1; eassumption.
Qed.

Lemma collect_run m :
  collect m =
  match score_of (num_agents m) (sorted (wealths m)) with
  | Ok g =>
      (Ok tt,
       set_datacollector
         {| model_vars := model_vars (datacollector m) ++ [g];
            agent_vars := agent_vars (datacollector m)
                          ++ [map (fun a => (wealth a, steps_not_given a))
                                  (agents m)] |} m)
  | Raise _ => (Raise RuntimeError, m)
  end.
Proof.
  unfold collect. rewrite bind_run. unfold reraise. rewrite compute_gini_run.
  destruct (score_of _ _); reflexivity.
Qed.

(** The part of a model that only [collect] writes. *)
Lemma collector_frame_random d n b m t :
  (datacollector m = d /\ num_agents m = n /\ running m = b) ->
  (datacollector (set_random t m) = d /\ num_agents (set_random t m) = n
   /\ running (set_random t m) = b).
Proof. intros H. exact H. Qed.

Lemma collector_frame_update d n b f :
  update_ok (fun m => datacollector m = d /\ num_agents m = n /\ running m = b) f.
Proof. intros m i a H _. exact H. Qed.

Lemma give_money_collector m i :
  datacollector (exec (give_money i) m) = datacollector m
  /\ num_agents (exec (give_money i) m) = num_agents m
  /\ running (exec (give_money i) m) = running m.
Proof.
  apply (kept_give_money
           (fun m' => datacollector m' = datacollector m
                      /\ num_agents m' = num_agents m /\ running m' = running m));
    try (intros; apply collector_frame_update).
  - intros m0 t H. exact H.
  - repeat split.
Qed.

Lemma after_collect_collector select_random_cell shuffle m :
  let rest := (agents_shuffle_do shuffle (move select_random_cell);;
               agents_do give_money) in
  datacollector (exec rest m) = datacollector m
  /\ num_agents (exec rest m) = num_agents m
  /\ running (exec rest m) = running m.
Proof.
  cbv zeta.
  set (R := fun m' => datacollector m' = datacollector m
                      /\ num_agents m' = num_agents m /\ running m' = running m).
  assert (HR : forall t m0, R m0 -> R (set_random t m0)) by (intros t m0 H; exact H).
  assert (Hu : forall f, update_ok R f) by (intros f; apply collector_frame_update).
  apply (keeps_bind R (agents_shuffle_do shuffle _)).
  - apply kept_agents_shuffle_do; [intros; apply HR; assumption|].
    intros i. apply kept_move; [intros; apply HR; assumption|intros; apply Hu].
  - intros _. apply kept_agents_do.
    intros i. apply kept_give_money; try apply Hu. intros; apply HR; assumption.
  - repeat split.
Qed.

Lemma step_run select_random_cell shuffle m :
  step select_random_cell shuffle m =
  match collect m with
  | (Ok _, m1) =>
      (agents_shuffle_do shuffle (move select_random_cell);;
       agents_do give_money) m1
  | (Raise e, m1) => (Raise e, m1)
  end.
Proof. unfold step. rewrite bind_run. destruct (collect m) as [[[]|e] m1]; reflexivity. Qed.



(** ** Extras on the data collector *)

Lemma collector_invariant_random m t :
  collector_invariant m -> collector_invariant (set_random t m).
Proof. intros H. exact H. Qed.

Lemma collector_invariant_update f : update_ok collector_invariant f.
Proof. intros m i a H _. exact H. Qed.

Lemma sum_map_fst_pairs (l : list MoneyAgent) :
  sum (map fst (map (fun a => (wealth a, steps_not_given a)) l))
  = sum (map wealth l).
Proof. rewrite map_map. reflexivity. Qed.

Lemma collect_invariant :
  keeps (fun m => wealth_invariant m /\ collector_invariant m) collect.
Proof.
  intros m [Hw Hc]. unfold exec. rewrite collect_run.
  destruct (score_of (num_agents m) (sorted (wealths m))) as [g|e] eqn:Hg;
    [|split; assumption].
  cbn [snd]. split.
  - apply (wealth_invariant_property m); [reflexivity|reflexivity|exact Hw].
  - destruct Hw as (Ht & Hn & Hnn). destruct Hc as (Hgs & Htbl & Hlen).
    assert (Hne : wealths m <> []).
    { intros H0. rewrite score_of_zero_sum in Hg; [discriminate|].
      rewrite sum_sorted, H0. reflexivity. }
    assert (Hpos : 0 < sum (wealths m)).
    { unfold total_wealth in Ht. rewrite Ht, Hn.
      destruct (wealths m); [contradiction|simpl; lia]. }
    destruct (score_range (num_agents m) (wealths m) Hn Hne Hnn Hpos)
      as (v & Hv & H0 & H1).
    rewrite Hg in Hv. injection Hv as <-.
    unfold collector_invariant.
    cbn [datacollector set_datacollector model_vars agent_vars num_agents].
    split; [|split].
    + apply Forall_app. split; [exact Hgs|]. apply Forall_singleton. split; assumption.
    + apply Forall_app. split; [exact Htbl|]. apply Forall_singleton. split.
      * rewrite length_map, Hn. unfold wealths. rewrite length_map. reflexivity.
      * rewrite sum_map_fst_pairs. exact Ht.
    + rewrite !length_app, Hlen. reflexivity.
Qed.

Lemma reachable_collector select_random_cell shuffle m :
  reachable select_random_cell shuffle m ->
  wealth_invariant m /\ collector_invariant m.
Proof.
  intros Hr. split; [eapply reachable_invariant, Hr|].
  induction Hr as [n width height seed m Hinit|m Hr IH|m i Hr IH|m i Hr IH|m Hr IH].
  - unfold MoneyModel_init in Hinit.
    destruct (choices _ n seed) as [[cells|e] t]; [|discriminate].
    injection Hinit as <-. repeat split; constructor.
  - apply (collect_invariant m). split; [eapply reachable_invariant, Hr|exact IH].
  - apply (kept_move collector_invariant);
      [exact collector_invariant_random|intros c; apply collector_invariant_update|exact IH].
  - apply (kept_give_money collector_invariant);
      try apply collector_invariant_update;
      [exact collector_invariant_random|exact IH].
  - assert (Hw := reachable_invariant _ _ _ Hr).
    assert (HJ := collect_invariant m (conj Hw IH)).
    unfold exec. rewrite step_run. unfold exec in HJ.
    destruct (collect m) as [[[]|e] m1]; cbn [snd] in HJ; [|apply HJ].
    destruct HJ as [_ HJ]. revert HJ.
    apply (keeps_bind collector_invariant (agents_shuffle_do shuffle _)).
    + apply kept_agents_shuffle_do; [exact collector_invariant_random|].
      intros i. apply kept_move;
        [exact collector_invariant_random|intros c; apply collector_invariant_update].
    + intros _. apply kept_agents_do. intros i.
      apply kept_give_money; try apply collector_invariant_update.
      exact collector_invariant_random.
Qed.

(** X9.  What the data collector holds after any number of steps of a
    new model: every Gini value lies in [[0, 1]], there is one table of
    agent data per Gini value, and every table has one row per agent with
    wealth summing to the number of agents, so that the mean wealth
    recorded is exactly 1. *)
Theorem collected_data_sound
  (select_random_cell : list Cell -> Cell -> nat -> Result Cell)
  (shuffle : list nat -> list nat -> list nat * list nat)
  (n : nat) (width height : Z) (seed : list nat) (k : nat) (m : MoneyModel) :
  MoneyModel_init n width height seed = Ok m ->
  collector_invariant (exec (run_model select_random_cell shuffle k) m).
Proof.
  intros Hinit.
  apply (reachable_collector select_random_cell shuffle).
  apply reachable_run_model.
  apply (reach_init _ _ n width height seed). exact Hinit.
Qed.

Lemma collected_data_sound_witness :
  collector_invariant
    (exec (run_model example_select_random_cell example_shuffle 4) example_model).
Proof.
  apply (collected_data_sound example_select_random_cell example_shuffle
           5%nat 2 2 example_seed).
  reflexivity.
Defined.

(** X10.  In a simulation with at least one agent the data collection at
    the start of a step always succeeds: it never meets the division by
    zero of [compute_gini], and it appends one Gini value and one table. *)
Theorem collect_succeeds
  (select_random_cell : list Cell -> Cell -> nat -> Result Cell)
  (shuffle : list nat -> list nat -> list nat * list nat)
  (m : MoneyModel) :
  reachable select_random_cell shuffle m ->
  0 < num_agents m ->
  exists g,
    collect m
    = (Ok tt,
       set_datacollector
         {| model_vars := model_vars (datacollector m) ++ [g];
            agent_vars := agent_vars (datacollector m)
                          ++ [map (fun a => (wealth a, steps_not_given a))
                                  (agents m)] |} m).
Proof.
  intros Hr Hn. rewrite collect_run.
  destruct (reachable_gini_defined _ _ m Hr Hn) as (v & Hv & _).
  rewrite eval_compute_gini in Hv. rewrite Hv. exists v. reflexivity.
Qed.

Lemma collect_succeeds_witness :
  exists g,
    collect example_model
    = (Ok tt,
       set_datacollector
         {| model_vars := model_vars (datacollector example_model) ++ [g];
            agent_vars := agent_vars (datacollector example_model)
                          ++ [map (fun a => (wealth a, steps_not_given a))
                                  (agents example_model)] |} example_model).
Proof.
  apply (collect_succeeds example_select_random_cell example_shuffle).
  - apply (reach_init _ _ 5%nat 2 2 example_seed). reflexivity.
  - reflexivity.
Defined.

Section StepProperties.

Variable R : MoneyModel -> Prop.
Hypothesis R_random : forall m t, R m -> R (set_random t m).
Hypothesis R_collector : forall m d, R m -> R (set_datacollector d m).
Hypothesis R_update : forall f, update_ok R f.

Variable select_random_cell : list Cell -> Cell -> nat -> Result Cell.
Variable shuffle : list nat -> list nat -> list nat * list nat.

Lemma kept_collect : keeps R collect.
Proof.
  intros m Hm. unfold exec. rewrite collect_run.
  destruct (score_of _ _); [apply R_collector|]; exact Hm.
Qed.

Lemma kept_step : keeps R (step select_random_cell shuffle).
Proof.
  apply (keeps_bind R collect); [apply kept_collect|].
  intros _. apply (keeps_bind R (agents_shuffle_do shuffle _)).
  - apply kept_agents_shuffle_do; [exact R_random|].
    intros i. apply kept_move; [exact R_random|intros c; apply R_update].
  - intros _. apply kept_agents_do. intros i.
    apply kept_give_money; try apply R_update. exact R_random.
Qed.

Lemma kept_run_model k : keeps R (run_model select_random_cell shuffle k).
Proof. apply keeps_repeat_do, kept_step. Qed.

Lemma kept_step_plain : keeps R (step_plain select_random_cell shuffle).
Proof.
  apply (keeps_bind R (agents_shuffle_do shuffle _)).
  - apply kept_agents_shuffle_do; [exact R_random|].
    intros i. apply kept_move; [exact R_random|intros c; apply R_update].
  - intros _. apply kept_agents_do. intros i.
    apply kept_give_money_plain; try apply R_update. exact R_random.
Qed.

End StepProperties.

(** X11.  Stepping never adds or removes an agent: after any number of
    steps, completed or cut short by an exception, the model has the agents
    it had, [num_agents] is what it was and [running] is unchanged. *)
Theorem run_model_population
  (select_random_cell : list Cell -> Cell -> nat -> Result Cell)
  (shuffle : list nat -> list nat -> list nat * list nat)
  (m : MoneyModel) (k : nat) :
  let m' := exec (run_model select_random_cell shuffle k) m in
  length (agents m') = length (agents m)
  /\ num_agents m' = num_agents m
  /\ running m' = running m.
Proof.
  cbv zeta.
  apply (kept_run_model
           (fun m' => length (agents m') = length (agents m)
                      /\ num_agents m' = num_agents m
                      /\ running m' = running m)).
  - intros m0 t H. exact H.
  - intros m0 d H. exact H.
  - intros f m0 i a (Hl & Hn & Hr) _. cbn [agents set_agents num_agents running].
    rewrite length_insert. auto.
  - repeat split.
Qed.

Lemma step_collector select_random_cell shuffle m :
  datacollector (exec (step select_random_cell shuffle) m)
  = datacollector (exec collect m)
  /\ (eval (step select_random_cell shuffle) m = Ok tt -> eval collect m = Ok tt).
Proof.
  unfold eval, exec. rewrite step_run.
  destruct (collect m) as [[[]|e] m1]; cbn [fst snd].
  - split; [|reflexivity]. apply (after_collect_collector select_random_cell shuffle m1).
  - split; [reflexivity|discriminate].
Qed.

Lemma collect_appends m :
  exists gs tbls,
    model_vars (datacollector (exec collect m))
    = model_vars (datacollector m) ++ gs
    /\ agent_vars (datacollector (exec collect m))
       = agent_vars (datacollector m) ++ tbls
    /\ length tbls = length gs
    /\ (length gs <= 1)%nat
    /\ (eval collect m = Ok tt -> length gs = 1%nat).
Proof.
  unfold eval, exec. rewrite collect_run.
  destruct (score_of _ _) as [g|e]; cbn [fst snd].
  - exists [g], [map (fun a => (wealth a, steps_not_given a)) (agents m)].
    repeat split; auto.
  - exists [], []. rewrite !app_nil_r. repeat split; auto. discriminate.
Qed.

(** X12.  The data collector only appends, once per step: after a run of
    [k] steps what it held before is still there, followed by at most [k]
    new Gini values and as many new tables, and by exactly [k] of each when
    all the steps completed. *)
Theorem run_model_collects
  (select_random_cell : list Cell -> Cell -> nat -> Result Cell)
  (shuffle : list nat -> list nat -> list nat * list nat)
  (k : nat) (m : MoneyModel) :
  exists gs tbls,
    model_vars (datacollector (exec (run_model select_random_cell shuffle k) m))
    = model_vars (datacollector m) ++ gs
    /\ agent_vars (datacollector (exec (run_model select_random_cell shuffle k) m))
       = agent_vars (datacollector m) ++ tbls
    /\ length tbls = length gs
    /\ (length gs <= k)%nat
    /\ (eval (run_model select_random_cell shuffle k) m = Ok tt ->
        length gs = k).
Proof.
  revert m. induction k as [|k IH]; intros m.
  - exists [], []. cbn. rewrite !app_nil_r. repeat split; auto.
  - change (run_model select_random_cell shuffle (S k))
      with (step select_random_cell shuffle
            ≫= fun _ => run_model select_random_cell shuffle k).
    rewrite exec_bind, eval_bind.
    destruct (step_collector select_random_cell shuffle m) as [Hdc Hok].
    destruct (collect_appends m) as (gs & tbls & Hg & Ht & Hl & Hle & Heq).
    rewrite <- Hdc in Hg, Ht. unfold eval, exec in *.
    destruct (step select_random_cell shuffle m) as [[[]|e] m1]; cbn [fst snd] in *.
    + destruct (IH m1) as (gs' & tbls' & Hg' & Ht' & Hl' & Hle' & Heq').
      exists (gs ++ gs'), (tbls ++ tbls').
      rewrite Hg', Ht', Hg, Ht, <- !app_assoc, !length_app.
      specialize (Heq (Hok eq_refl)).
      repeat split; try lia. intros Hrun. specialize (Heq' Hrun). lia.
    + exists gs, tbls. repeat split; auto; [lia|discriminate].
Qed.

Lemma run_model_collects_witness :
  exists gs tbls,
    model_vars (datacollector
      (exec (run_model example_select_random_cell example_shuffle 4) example_model))
    = model_vars (datacollector example_model) ++ gs
    /\ agent_vars (datacollector
         (exec (run_model example_select_random_cell example_shuffle 4)
               example_model))
       = agent_vars (datacollector example_model) ++ tbls
    /\ length tbls = length gs
    /\ (length gs <= 4)%nat
    /\ (eval (run_model example_select_random_cell example_shuffle 4)
              example_model = Ok tt ->
        length gs = 4%nat).
Proof.
  exact (run_model_collects example_select_random_cell example_shuffle 4
           example_model).
Defined.

(** X13.  A fresh model with at least one agent starts from perfect
    equality: the Gini value that its first step collects is [0]. *)
Theorem first_gini_is_zero
  (select_random_cell : list Cell -> Cell -> nat -> Result Cell)
  (shuffle : list nat -> list nat -> list nat * list nat)
  (n : nat) (width height : Z) (seed : list nat) (m : MoneyModel) :
  MoneyModel_init n width height seed = Ok m ->
  (1 <= n)%nat ->
  exists g,
    model_vars (datacollector (exec (step select_random_cell shuffle) m)) = [g]
    /\ (g == 0)%Q.
Proof.
  intros Hinit Hn.
  rewrite (proj1 (step_collector select_random_cell shuffle m)).
  assert (Hdc : model_vars (datacollector m) = []).
  { unfold MoneyModel_init in Hinit.
    destruct (choices _ n seed) as [[cells|e] t]; [|discriminate].
    injection Hinit as <-. reflexivity. }
  apply MoneyModel_init_spec in Hinit as [Hnum Hw].
  destruct (score_equal_wealth n 1 Hn ltac:(lia)) as (g & Hg & H0).
  unfold exec. rewrite collect_run, Hnum, Hw, Hg.
  cbn [snd datacollector set_datacollector model_vars]. rewrite Hdc.
  exists g. split; [reflexivity|exact H0].
Qed.

Lemma first_gini_is_zero_witness :
  exists g,
    model_vars (datacollector
      (exec (step example_select_random_cell example_shuffle) example_model)) = [g]
    /\ (g == 0)%Q.
Proof.
  apply (first_gini_is_zero example_select_random_cell example_shuffle
           5 2 2 example_seed example_model).
  - reflexivity.
  - lia.
Defined.

Lemma le_sum_of_nonneg l :
  Forall (fun w => 0 <= w) l -> Forall (fun w => w <= sum l) l.
Proof.
  induction 1 as [|a l Ha Hl IH]; [constructor|].
  rewrite sum_cons. assert (Hs := sum_nonneg l Hl). constructor; [lia|].
  eapply Forall_impl; [exact IH|]. intros w Hw. simpl in Hw. lia.
Qed.

(** X14.  In every state of a simulation every agent holds at least
    nothing and at most all the units there are, which are as many as
    there are agents. *)
Theorem wealth_bounded
  (select_random_cell : list Cell -> Cell -> nat -> Result Cell)
  (shuffle : list nat -> list nat -> list nat * list nat)
  (m : MoneyModel) :
  reachable select_random_cell shuffle m ->
  Forall (fun w => 0 <= w <= num_agents m) (wealths m).
Proof.
  intros Hr. apply reachable_invariant in Hr as (Ht & _ & Hnn).
  unfold total_wealth in Ht. rewrite <- Ht.
  assert (Hle := le_sum_of_nonneg _ Hnn).
  apply Forall_and. split; assumption.
Qed.

Lemma wealth_bounded_witness :
  Forall (fun w => 0 <= w
                   <= num_agents (exec (run_model example_select_random_cell
                                          example_shuffle 4) example_model))
    (wealths (exec (run_model example_select_random_cell example_shuffle 4)
                   example_model)).
Proof.
  apply (wealth_bounded example_select_random_cell example_shuffle).
  apply reachable_run_model.
  apply (reach_init _ _ 5%nat 2 2 example_seed). reflexivity.
Defined.

(** ** Extras on the model *)

Lemma choices_elem population k :
  forall t cells t',
    choices population k t = (Ok cells, t') ->
    Forall (fun c => c ∈ population) cells.
Proof.
  induction k as [|k IH]; intros t cells t' H; simpl in H.
  - unfold ret in H. injection H as <- _. constructor.
  - rewrite bind_run in H.
    destruct t as [|r t].
    + destruct (population !! (0 mod length population)%nat) as [c|] eqn:Hc;
        [|discriminate H].
      rewrite bind_run in H.
      destruct (choices population k []) as [[cs|e] t''] eqn:Hcs; [|discriminate H].
      unfold ret in H. injection H as <- _.
      constructor; [eapply list_elem_of_lookup_2, Hc|eapply IH, Hcs].
    + destruct (population !! (r mod length population)%nat) as [c|] eqn:Hc;
        [|discriminate H].
      rewrite bind_run in H.
      destruct (choices population k t) as [[cs|e] t''] eqn:Hcs; [|discriminate H].
      unfold ret in H. injection H as <- _.
      constructor; [eapply list_elem_of_lookup_2, Hc|eapply IH, Hcs].
Qed.

(** X15.  A model built for [n] agents has exactly [n] agents, and
    [num_agents] says so; each agent starts with wealth [1] and
    [steps_not_given = 0] on a cell of the grid; nothing has been collected
    yet and the model is [running]. *)
Theorem MoneyModel_init_state
  (n : nat) (width height : Z) (seed : list nat) (m : MoneyModel) :
  MoneyModel_init n width height seed = Ok m ->
  num_agents m = Z.of_nat n
  /\ length (agents m) = n
  /\ Forall (fun a => wealth a = 1 /\ steps_not_given a = 0
                      /\ cell a ∈ all_cells width height) (agents m)
  /\ datacollector m = {| model_vars := []; agent_vars := [] |}
  /\ running m = true.
Proof.
  unfold MoneyModel_init.
  destruct (choices _ n seed) as [[cells|e] t] eqn:Hc; [|discriminate].
  intros H. injection H as <-. cbn [num_agents agents datacollector running].
  assert (Hl := choices_length _ _ _ _ _ Hc).
  assert (He := choices_elem _ _ _ _ _ Hc).
  rewrite length_map. repeat split; auto.
  clear Hc Hl. induction He as [|c cs Hin Hcs IH]; simpl; constructor; auto.
Qed.

Lemma MoneyModel_init_state_witness :
  num_agents example_model = Z.of_nat 5
  /\ length (agents example_model) = 5%nat
  /\ Forall (fun a => wealth a = 1 /\ steps_not_given a = 0
                      /\ cell a ∈ all_cells 2 2) (agents example_model)
  /\ datacollector example_model = {| model_vars := []; agent_vars := [] |}
  /\ running example_model = true.
Proof.
  apply (MoneyModel_init_state 5 2 2 example_seed example_model). reflexivity.
Defined.

(** The two ways [give_money] runs for an agent of the model. *)
Lemma give_money_cases m i me :
  agents m !! i = Some me ->
  give_money i m
  = (Ok tt,
     set_agents
       (<[i := set_steps_not_given (steps_not_given me + 1) me]> (agents m)) m)
  \/ exists other o t,
       other <> i
       /\ agents m !! other = Some o
       /\ give_money i m
          = (Ok tt,
             set_agents
               (<[i := {| cell := cell me; wealth := wealth me - 1;
                          steps_not_given := 0 |}]>
                  (<[other := set_wealth (wealth o + 1) o]> (agents m)))
               (set_random t m)).
Proof.
  intros Hme.
  set (cellmates := filter (fun a => a <> i) (cell_agents (cell me) (agents m))).
  destruct (decide (cellmates <> [] /\ 0 < wealth me)) as [[Hmates Hw]|Hno].
  - right.
    destruct (give_money_run_gift m i me Hme Hmates Hw)
      as (other & o & t & Hne & Ho & _ & Hrun).
    exists other, o, t. auto.
  - left. apply give_money_run_none; [exact Hme|].
    destruct (decide (0 < wealth me)); [right|left; lia].
    destruct (decide (cellmates = [])) as [Hc|Hc]; [exact Hc|].
    exfalso. apply Hno. split; assumption.
Qed.

Lemma steps_front_mono b j j' m :
  (j <= j')%nat -> steps_front b j m -> steps_front b j' m.
Proof.
  intros Hj H i a Ha. destruct (H i a Ha) as [H0 H1]. split; [exact H0|].
  destruct (decide (i < j)%nat), (decide (i < j')%nat); lia.
Qed.

Lemma steps_front_give_money b j m :
  steps_front b j m -> steps_front b (S j) (exec (give_money j) m).
Proof.
  intros H. unfold exec.
  destruct (agents m !! j) as [me|] eqn:Hme.
  2:{ unfold give_money. rewrite bind_run, get_agent_run, Hme. cbn [snd].
      eapply steps_front_mono; [|exact H]. lia. }
  destruct (H j me Hme) as [Hme0 Hme1].
  destruct (decide (j < j)%nat) as [Hlt|_]; [lia|].
  destruct (give_money_cases m j me Hme) as [->|(other & o & t & Hne & Ho & ->)];
    cbn [snd]; intros i a Ha; cbn [agents set_agents set_random] in Ha.
  - destruct (decide (i = j)) as [->|Hij].
    + rewrite list_lookup_insert_eq in Ha by (eapply lookup_lt_Some, Hme).
      injection Ha as <-. cbn [steps_not_given set_steps_not_given].
      destruct (decide (j < S j)%nat); lia.
    + rewrite list_lookup_insert_ne in Ha by congruence.
      destruct (H i a Ha) as [H0 H1]. split; [exact H0|].
      destruct (decide (i < j)%nat), (decide (i < S j)%nat); lia.
  - destruct (decide (i = j)) as [->|Hij].
    + rewrite list_lookup_insert_eq in Ha
        by (rewrite length_insert; eapply lookup_lt_Some, Hme).
      injection Ha as <-. cbn [steps_not_given].
      destruct (decide (j < S j)%nat); lia.
    + rewrite list_lookup_insert_ne in Ha by congruence.
      destruct (decide (i = other)) as [->|Hio].
      * rewrite list_lookup_insert_eq in Ha by (eapply lookup_lt_Some, Ho).
        injection Ha as <-. cbn [steps_not_given set_wealth].
        destruct (H other o Ho) as [H0 H1]. split; [exact H0|].
        destruct (decide (other < j)%nat), (decide (other < S j)%nat); lia.
      * rewrite list_lookup_insert_ne in Ha by congruence.
        destruct (H i a Ha) as [H0 H1]. split; [exact H0|].
        destruct (decide (i < j)%nat), (decide (i < S j)%nat); lia.
Qed.

Lemma steps_front_for_each b len :
  forall j m,
    steps_front b j m ->
    steps_front b (j + len) (exec (for_each (seq j len) give_money) m).
Proof.
  induction len as [|len IH]; intros j m H.
  - eapply steps_front_mono; [|exact H]. lia.
  - change (for_each (seq j (S len)) give_money)
      with (give_money j ≫= fun _ => for_each (seq (S j) len) give_money).
    rewrite exec_bind.
    assert (Hj := steps_front_give_money b j m H). unfold exec in Hj.
    destruct (give_money j m) as [[[]|e] m1]; cbn [snd] in Hj.
    + replace (j + S len)%nat with (S j + len)%nat by lia. apply IH, Hj.
    + eapply steps_front_mono; [|exact Hj]. lia.
Qed.

Lemma steps_bounded_front b m : steps_bounded b m <-> steps_front b 0 m.
Proof.
  unfold steps_bounded, steps_front. rewrite Forall_lookup. split.
  - intros H i a Ha. specialize (H i a Ha).
    destruct (decide (i < 0)%nat); lia.
  - intros H i a Ha. specialize (H i a Ha).
    destruct (decide (i < 0)%nat); lia.
Qed.

Lemma steps_front_bounded b j m : steps_front b j m -> steps_bounded (b + 1) m.
Proof.
  unfold steps_bounded, steps_front. rewrite Forall_lookup.
  intros H i a Ha. specialize (H i a Ha).
  destruct (decide (i < j)%nat); lia.
Qed.

Lemma steps_bounded_mono b b' m :
  b <= b' -> steps_bounded b m -> steps_bounded b' m.
Proof.
  intros Hb H. unfold steps_bounded in *.
  eapply Forall_impl; [exact H|]. intros a Ha. simpl in Ha. lia.
Qed.

Lemma steps_bounded_agents_do b m :
  steps_bounded b m -> steps_bounded (b + 1) (exec (agents_do give_money) m).
Proof.
  intros H. unfold agents_do. rewrite exec_bind. unfold gets. cbn iota beta.
  eapply steps_front_bounded, steps_front_for_each, steps_bounded_front, H.
Qed.

Lemma steps_bounded_step select_random_cell shuffle b m :
  steps_bounded b m ->
  steps_bounded (b + 1) (exec (step select_random_cell shuffle) m).
Proof.
  intros H.
  assert (Hr : forall m0 t, steps_bounded b m0 -> steps_bounded b (set_random t m0))
    by (intros m0 t H0; exact H0).
  assert (Hc : steps_bounded b (exec collect m)).
  { unfold exec. rewrite collect_run. destruct (score_of _ _); exact H. }
  unfold exec. rewrite step_run. unfold exec in Hc.
  destruct (collect m) as [[[]|e] m1]; cbn [snd] in Hc.
  2:{ eapply steps_bounded_mono; [|exact Hc]. lia. }
  change (steps_bounded (b + 1)
            (exec (agents_shuffle_do shuffle (move select_random_cell)
                   ≫= fun _ => agents_do give_money) m1)).
  rewrite exec_bind.
  assert (Hs : steps_bounded b
                 (exec (agents_shuffle_do shuffle (move select_random_cell)) m1)).
  { apply (kept_agents_shuffle_do (steps_bounded b)); [exact Hr| |exact Hc].
    intros i. apply kept_move; [exact Hr|].
    intros c. apply (update_ok_pointwise (fun a => 0 <= steps_not_given a <= b)).
    intros a Ha. exact Ha. }
  unfold exec in Hs.
  destruct (agents_shuffle_do shuffle (move select_random_cell) m1)
    as [[[]|e] m2]; cbn [snd] in Hs.
  - apply steps_bounded_agents_do, Hs.
  - eapply steps_bounded_mono; [|exact Hs]. lia.
Qed.

Lemma steps_bounded_run select_random_cell shuffle k :
  forall b m,
    steps_bounded b m ->
    steps_bounded (b + Z.of_nat k)
      (exec (run_model select_random_cell shuffle k) m).
Proof.
  induction k as [|k IH]; intros b m H.
  - eapply steps_bounded_mono; [|exact H]. simpl. lia.
  - change (run_model select_random_cell shuffle (S k))
      with (step select_random_cell shuffle
            ≫= fun _ => run_model select_random_cell shuffle k).
    rewrite exec_bind.
    assert (Hs := steps_bounded_step select_random_cell shuffle b m H).
    unfold exec in Hs.
    destruct (step select_random_cell shuffle m) as [[[]|e] m1]; cbn [snd] in Hs.
    + replace (b + Z.of_nat (S k)) with (b + 1 + Z.of_nat k) by lia.
      apply IH, Hs.
    + eapply steps_bounded_mono; [|exact Hs]. lia.
Qed.

(** X16.  [steps_not_given] counts steps: after [k] steps of a fresh
    model every agent's [steps_not_given] lies between [0] and [k]. *)
Theorem steps_not_given_bounded
  (select_random_cell : list Cell -> Cell -> nat -> Result Cell)
  (shuffle : list nat -> list nat -> list nat * list nat)
  (n : nat) (width height : Z) (seed : list nat) (m : MoneyModel) (k : nat) :
  MoneyModel_init n width height seed = Ok m ->
  Forall (fun a => 0 <= steps_not_given a <= Z.of_nat k)
    (agents (exec (run_model select_random_cell shuffle k) m)).
Proof.
  intros Hinit.
  apply (steps_bounded_run select_random_cell shuffle k 0 m).
  unfold MoneyModel_init in Hinit.
  destruct (choices _ n seed) as [[cells|e] t]; [|discriminate].
  injection Hinit as <-. unfold steps_bounded. cbn [agents].
  induction cells; simpl; constructor; [simpl; lia|assumption].
Qed.

Lemma steps_not_given_bounded_witness :
  Forall (fun a => 0 <= steps_not_given a <= Z.of_nat 4)
    (agents (exec (run_model example_select_random_cell example_shuffle 4)
                  example_model)).
Proof.
  apply (steps_not_given_bounded example_select_random_cell example_shuffle
           5 2 2 example_seed example_model 4).
  reflexivity.
Defined.

(** ** The two tutorials run the same simulation *)

Lemma agree_refl m : agree m m.
Proof. repeat split. Qed.

Lemma agree_lookup m m' i :
  agree m m' ->
  match agents m !! i, agents m' !! i with
  | Some a, Some a' => cell a = cell a' /\ wealth a = wealth a'
  | None, None => True
  | _, _ => False
  end.
Proof.
  intros (Hc & Hw & _). unfold wealths in Hw.
  assert (H1 := lookup_map cell (agents m) i).
  assert (H2 := lookup_map cell (agents m') i).
  assert (H3 := lookup_map wealth (agents m) i).
  assert (H4 := lookup_map wealth (agents m') i).
  rewrite Hc in H1. rewrite Hw in H3. rewrite H2 in H1. rewrite H4 in H3.
  destruct (agents m !! i), (agents m' !! i); simpl in *;
    try discriminate; [split; congruence|exact I].
Qed.

Lemma cell_agents_agree c l l' :
  map cell l = map cell l' -> cell_agents c l = cell_agents c l'.
Proof.
  intros H. unfold cell_agents.
  assert (Hlen : length l = length l').
  { rewrite <- (length_map cell l), H, length_map. reflexivity. }
  rewrite Hlen. apply list_filter_iff. intros j.
  rewrite <- !lookup_map, H. reflexivity.
Qed.

Lemma random_draw_agree m m' :
  random m = random m' ->
  exists r t, random_draw m = (Ok r, set_random t m)
              /\ random_draw m' = (Ok r, set_random t m').
Proof.
  intros H. unfold random_draw. rewrite <- H.
  destruct m as [n l tape d b], m' as [n' l' tape' d' b']. simpl in *. subst tape'.
  destruct tape as [|r t].
  - exists 0%nat, []. split; reflexivity.
  - exists r, t. split; reflexivity.
Qed.

Lemma random_choice_agree {A} (seq : list A) m m' :
  random m = random m' ->
  exists t,
    (exists x, x ∈ seq
               /\ random_choice seq m = (Ok x, set_random t m)
               /\ random_choice seq m' = (Ok x, set_random t m'))
    \/ (random_choice seq m = (Raise IndexError, set_random t m)
        /\ random_choice seq m' = (Raise IndexError, set_random t m')).
Proof.
  intros H. unfold random_choice. rewrite !bind_run.
  destruct (random_draw_agree m m' H) as (r & t & -> & ->). exists t.
  destruct (seq !! (r mod length seq)%nat) as [x|] eqn:Hx.
  - left. exists x. split; [eapply list_elem_of_lookup_2, Hx|]. split; reflexivity.
  - right. split; reflexivity.
Qed.

Lemma gift_tail m0 i other me o :
  other <> i -> agents m0 !! i = Some me -> agents m0 !! other = Some o ->
  (update_agent other (fun a => set_wealth (wealth a + 1) a);;
   update_agent i (fun a => set_wealth (wealth a - 1) a);;
   update_agent i (set_steps_not_given 0)) m0
  = (Ok tt,
     set_agents
       (<[i := {| cell := cell me; wealth := wealth me - 1;
                  steps_not_given := 0 |}]>
          (<[other := set_wealth (wealth o + 1) o]> (agents m0))) m0).
Proof.
  intros Hne Hme Ho.
  rewrite bind_run, update_agent_run, Ho.
  rewrite bind_run, update_agent_run. cbn [agents set_agents].
  rewrite list_lookup_insert_ne, Hme by exact Hne.
  rewrite update_agent_run. cbn [agents set_agents].
  rewrite list_lookup_insert_eq
    by (rewrite length_insert; eapply lookup_lt_Some, Hme).
  unfold set_agents. cbn [num_agents agents random datacollector running].
  rewrite list_insert_insert_eq. reflexivity.
Qed.

Lemma gift_tail_plain m0 i other me o :
  other <> i -> agents m0 !! i = Some me -> agents m0 !! other = Some o ->
  (update_agent other (fun a => set_wealth (wealth a + 1) a);;
   update_agent i (fun a => set_wealth (wealth a - 1) a)) m0
  = (Ok tt,
     set_agents
       (<[i := set_wealth (wealth me - 1) me]>
          (<[other := set_wealth (wealth o + 1) o]> (agents m0))) m0).
Proof.
  intros Hne Hme Ho.
  rewrite bind_run, update_agent_run, Ho.
  rewrite update_agent_run. cbn [agents set_agents].
  rewrite list_lookup_insert_ne, Hme by exact Hne. reflexivity.
Qed.

Lemma simulates_give_money i : simulates (give_money i) (give_money_plain i).
Proof.
  intros m m' Hag.
  assert (Hlk := agree_lookup m m' i Hag).
  destruct Hag as (Hc & Hw & Hr).
  unfold eval, exec, give_money, give_money_plain.
  rewrite !bind_run, !get_agent_run.
  destruct (agents m !! i) as [me|] eqn:Hme, (agents m' !! i) as [me'|] eqn:Hme';
    try contradiction.
  2:{ cbn. repeat split; assumption. }
  destruct Hlk as [Hcell Hwealth].
  rewrite !bind_run. unfold gets. cbv beta iota.
  rewrite <- Hcell, <- Hwealth, <- (cell_agents_agree (cell me) _ _ Hc).
  set (cellmates := filter (fun a => a <> i) (cell_agents (cell me) (agents m))).
  replace (bool_decide (0 < wealth me) && bool_decide (cellmates <> []))
    with (bool_decide (0 < length cellmates)%nat && bool_decide (0 < wealth me)).
  2:{ rewrite andb_comm. f_equal. apply bool_decide_ext.
      destruct cellmates; simpl; split; intros H; (lia || congruence). }
  destruct (bool_decide (0 < length cellmates)%nat && bool_decide (0 < wealth me)).
  - rewrite !bind_run.
    destruct (random_choice_agree cellmates m m' Hr)
      as [t [(other & Hin & -> & ->)|[-> ->]]].
    2:{ cbn. repeat split; assumption. }
    apply list_elem_of_filter in Hin as [Hne Hin].
    apply elem_of_cell_agents in Hin as [o [Ho _]].
    assert (Hlo := agree_lookup m m' other (conj Hc (conj Hw Hr))).
    rewrite Ho in Hlo.
    destruct (agents m' !! other) as [o'|] eqn:Ho'; [|contradiction].
    destruct Hlo as [Hocell Howealth].
    rewrite (gift_tail (set_random t m) i other me o Hne Hme Ho).
    rewrite (gift_tail_plain (set_random t m') i other me' o' Hne Hme' Ho').
    cbn [fst snd]. split; [reflexivity|].
    unfold agree, wealths. cbn [agents set_agents set_random random].
    rewrite !map_insert. cbn [cell wealth set_wealth].
    unfold wealths in Hw. rewrite Hc, Hw, Hcell, Hwealth, Howealth, Hocell.
    repeat split.
  - rewrite update_agent_run, Hme. cbn [fst snd]. split; [reflexivity|].
    unfold agree, wealths. cbn [agents set_agents random].
    rewrite (map_insert_same cell (agents m) i me) by (exact Hme || reflexivity).
    rewrite (map_insert_same wealth (agents m) i me) by (exact Hme || reflexivity).
    repeat split; assumption.
Qed.

Lemma simulates_ret {A} (a : A) : simulates (ret a) (ret a).
Proof. intros m m' H. split; [reflexivity|exact H]. Qed.

Lemma simulates_bind {A B} (c c' : M MoneyModel A) (k k' : A -> M MoneyModel B) :
  simulates c c' -> (forall a, simulates (k a) (k' a)) ->
  simulates (c ≫= k) (c' ≫= k').
Proof.
  intros Hc Hk m m' Hag. destruct (Hc m m' Hag) as [He Hx].
  rewrite !eval_bind, !exec_bind. unfold eval, exec in He, Hx.
  destruct (c m) as [[a|e] m1], (c' m') as [[a'|e'] m1'];
    cbn [fst snd] in He, Hx; try discriminate.
  - injection He as <-. apply Hk, Hx.
  - injection He as <-. split; [reflexivity|exact Hx].
Qed.

Lemma simulates_gets {A} (f : MoneyModel -> A) :
  (forall m m', agree m m' -> f m = f m') -> simulates (gets f) (gets f).
Proof.
  intros Hf m m' Hag. unfold eval, exec, gets. cbn [fst snd].
  split; [f_equal; apply Hf, Hag|exact Hag].
Qed.

Lemma simulates_for_each {A} (l : list A) (f f' : A -> M MoneyModel unit) :
  (forall x, simulates (f x) (f' x)) ->
  simulates (for_each l f) (for_each l f').
Proof.
  intros Hf. induction l as [|x l IH].
  - apply simulates_ret.
  - apply (simulates_bind (f x) (f' x)); [apply Hf|intros _; exact IH].
Qed.

Lemma simulates_repeat_do k (c c' : M MoneyModel unit) :
  simulates c c' -> simulates (repeat_do k c) (repeat_do k c').
Proof.
  intros Hc. induction k as [|k IH].
  - apply simulates_ret.
  - apply (simulates_bind c c'); [exact Hc|intros _; exact IH].
Qed.

Lemma agree_length m m' : agree m m' -> length (agents m) = length (agents m').
Proof.
  intros (Hc & _ & _).
  rewrite <- (length_map cell (agents m)), Hc, length_map. reflexivity.
Qed.

Lemma simulates_move select_random_cell i :
  simulates (move select_random_cell i) (move select_random_cell i).
Proof.
  intros m m' Hag.
  assert (Hlk := agree_lookup m m' i Hag).
  destruct Hag as (Hc & Hw & Hr).
  unfold eval, exec, move. rewrite !bind_run, !get_agent_run.
  destruct (agents m !! i) as [me|] eqn:Hme, (agents m' !! i) as [me'|] eqn:Hme';
    try contradiction.
  2:{ cbn. repeat split; assumption. }
  destruct Hlk as [Hcell Hwealth].
  rewrite !bind_run.
  destruct (random_draw_agree m m' Hr) as (r & t & -> & ->).
  rewrite !bind_run. unfold gets, lift. cbv beta iota. rewrite !bind_run.
  cbn [agents set_random]. rewrite <- Hc, <- Hcell.
  destruct (select_random_cell (map cell (agents m)) (cell me) r) as [c|e].
  - rewrite !update_agent_run. cbn [agents set_random]. rewrite Hme, Hme'.
    cbn [fst snd]. split; [reflexivity|].
    unfold agree, wealths. cbn [agents set_agents set_random random].
    rewrite !map_insert. cbn [cell wealth set_cell].
    unfold wealths in Hw. rewrite Hc, Hw, Hwealth. repeat split.
  - cbn. repeat split; assumption.
Qed.

Lemma simulates_agents_do (f f' : nat -> M MoneyModel unit) :
  (forall i, simulates (f i) (f' i)) -> simulates (agents_do f) (agents_do f').
Proof.
  intros Hf. apply (simulates_bind (gets _) (gets _)).
  - apply simulates_gets. exact agree_length.
  - intros n. apply simulates_for_each, Hf.
Qed.

Lemma simulates_agents_shuffle_do shuffle (f f' : nat -> M MoneyModel unit) :
  (forall i, simulates (f i) (f' i)) ->
  simulates (agents_shuffle_do shuffle f) (agents_shuffle_do shuffle f').
Proof.
  intros Hf. apply (simulates_bind (gets _) (gets _)).
  - apply simulates_gets. exact agree_length.
  - intros n. apply (simulates_bind (gets _) (gets _)).
    + apply simulates_gets. intros m m' (_ & _ & Hr). exact Hr.
    + intros t. destruct (shuffle t (seq 0 n)) as [order t'].
      apply (simulates_bind (modify _) (modify _)).
      * intros m m' (Hc & Hw & Hr). unfold eval, exec, modify. cbn [fst snd].
        split; [reflexivity|]. repeat split; assumption.
      * intros _. apply simulates_for_each, Hf.
Qed.

Lemma simulates_step_plain select_random_cell shuffle :
  simulates
    (agents_shuffle_do shuffle (move select_random_cell);; agents_do give_money)
    (step_plain select_random_cell shuffle).
Proof.
  apply (simulates_bind (agents_shuffle_do shuffle _) (agents_shuffle_do shuffle _)).
  - apply simulates_agents_shuffle_do. intros i. apply simulates_move.
  - intros _. apply simulates_agents_do. intros i. apply simulates_give_money.
Qed.

Lemma simulates_step select_random_cell shuffle m m' :
  agree m m' ->
  num_agents m * total_wealth m <> 0 ->
  eval (step select_random_cell shuffle) m
  = eval (step_plain select_random_cell shuffle) m'
  /\ agree (exec (step select_random_cell shuffle) m)
           (exec (step_plain select_random_cell shuffle) m').
Proof.
  intros Hag Hn. unfold eval, exec. rewrite step_run, collect_run.
  destruct (compute_gini_returns m Hn) as [v Hv].
  rewrite compute_gini_run in Hv. injection Hv as Hv. rewrite Hv.
  apply (simulates_step_plain select_random_cell shuffle).
  destruct Hag as (Hc & Hw & Hr). repeat split; assumption.
Qed.

(** A well-formed model with non-negative wealth, not all zero, stays so
    through a step; on such a model the score is defined, in the rationals
    and in binary64 alike. *)
Lemma step_keeps_measurable select_random_cell shuffle :
  keeps (fun m => consistent m /\ all_nonneg m /\ 0 < total_wealth m)
        (step select_random_cell shuffle).
Proof.
  apply keeps_step.
  - intros m m' Hw Hn (Hc & Hnn & Hpos).
    unfold consistent, all_nonneg, total_wealth in *.
    rewrite Hw, Hn. split; [|split; assumption].
    rewrite Hc, <- !(length_map wealth). fold (wealths m) (wealths m').
    rewrite Hw. reflexivity.
  - intros i m (Hc & Hnn & Hpos). split; [|split].
    + unfold consistent in *. rewrite give_money_num_agents, Hc. f_equal.
      rewrite <- !(length_map wealth).
      destruct (give_money_effect_holds m i) as [->|? ? ? _ _ _ _ _ ->];
        [reflexivity|].
      rewrite !length_insert. reflexivity.
    + apply give_money_nonneg, Hnn.
    + rewrite give_money_total. exact Hpos.
Qed.

Lemma measurable_nonzero m :
  consistent m -> 0 < total_wealth m -> num_agents m * total_wealth m <> 0.
Proof.
  intros Hc Hpos. apply consistent_length in Hc. unfold total_wealth in *.
  destruct (wealths m); [simpl in Hpos; lia|simpl length in Hc; nia].
Qed.

(** X17.  The model of [2_collecting_data.ipynb] that collects nothing and
    the model with the data collector run the same simulation.  From
    well-formed models that agree on the agents' cells, their wealth and
    the generator, and whose wealth is non-negative and not all zero, as
    the constructor leaves it, any number of steps give the same result
    (completion or the same exception) and models that agree again. *)
Theorem tutorials_agree
  (select_random_cell : list Cell -> Cell -> nat -> Result Cell)
  (shuffle : list nat -> list nat -> list nat * list nat)
  (k : nat) (m m' : MoneyModel) :
  agree m m' ->
  consistent m ->
  all_nonneg m ->
  0 < total_wealth m ->
  eval (run_model select_random_cell shuffle k) m
  = eval (run_model_plain select_random_cell shuffle k) m'
  /\ agree (exec (run_model select_random_cell shuffle k) m)
           (exec (run_model_plain select_random_cell shuffle k) m').
Proof.
  revert m m'. induction k as [|k IH]; intros m m' Hag Hc Hnn Hpos.
  - split; [reflexivity|exact Hag].
  - change (run_model select_random_cell shuffle (S k))
      with (step select_random_cell shuffle
            ≫= fun _ => run_model select_random_cell shuffle k).
    change (run_model_plain select_random_cell shuffle (S k))
      with (step_plain select_random_cell shuffle
            ≫= fun _ => run_model_plain select_random_cell shuffle k).
    rewrite !eval_bind, !exec_bind.
    destruct (simulates_step select_random_cell shuffle m m' Hag
                (measurable_nonzero m Hc Hpos)) as [He Hx].
    assert (Hp := step_keeps_measurable select_random_cell shuffle m
                    (conj Hc (conj Hnn Hpos))).
    unfold eval, exec in He, Hx, Hp.
    destruct (step select_random_cell shuffle m) as [[[]|e] m1],
             (step_plain select_random_cell shuffle m') as [[[]|e'] m1'];
      cbn [fst snd] in He, Hx, Hp; try discriminate.
    + destruct Hp as (Hc1 & Hnn1 & Hpos1). apply IH; assumption.
    + split; assumption.
Qed.

Lemma tutorials_agree_witness :
  eval (run_model example_select_random_cell example_shuffle 4) example_model
  = eval (run_model_plain example_select_random_cell example_shuffle 4)
         example_model
  /\ agree (exec (run_model example_select_random_cell example_shuffle 4)
                 example_model)
           (exec (run_model_plain example_select_random_cell example_shuffle 4)
                 example_model).
Proof.
  apply (tutorials_agree example_select_random_cell example_shuffle 4
           example_model example_model).
  - apply agree_refl.
  - reflexivity.
  - unfold all_nonneg. repeat constructor; simpl; lia.
  - reflexivity.
Defined.

(** ** Gifts and the Gini value *)

Lemma insert_Permutation_cons {A} (l : list A) i a v :
  l !! i = Some a -> <[i := v]> l ≡ₚ v :: delete i l.
Proof.
  revert i. induction l as [|x l IH]; intros [|i] Hi; simpl in Hi; try discriminate.
  - reflexivity.
  - cbn. rewrite (IH i Hi). apply perm_swap.
Qed.

Lemma two_Permutation {A} (l : list A) i j a b :
  i <> j -> l !! i = Some a -> l !! j = Some b ->
  exists rest,
    l ≡ₚ a :: b :: rest
    /\ forall a' b', <[i := a']> (<[j := b']> l) ≡ₚ a' :: b' :: rest.
Proof.
  intros Hij Hi Hj.
  assert (Hin : a ∈ delete j l).
  { apply list_elem_of_lookup.
    exists (if decide (i < j)%nat then i else pred i).
    rewrite list_lookup_delete.
    destruct (decide (i < j)%nat) as [Hlt|Hge].
    - destruct (decide (i < j)%nat); [exact Hi|contradiction].
    - destruct (decide (pred i < j)%nat); [lia|].
      replace (S (pred i)) with i by lia. exact Hi. }
  apply elem_of_Permutation in Hin as [rest Hrest].
  exists rest. split.
  - rewrite (delete_Permutation l j b Hj), Hrest. apply perm_swap.
  - intros a' b'.
    assert (Hi1 : <[j := b']> l !! i = Some a)
      by (rewrite list_lookup_insert_ne by congruence; exact Hi).
    assert (H1 : <[j := b']> l ≡ₚ a :: b' :: rest).
    { rewrite (insert_Permutation_cons l j b b' Hj), Hrest. apply perm_swap. }
    rewrite (insert_Permutation_cons _ i a a' Hi1). apply perm_skip.
    apply (Permutation_cons_inv (a := a)).
    rewrite <- (delete_Permutation _ i a Hi1). exact H1.
Qed.

Lemma gap_shift_up a b rest :
  a <= b ->
  gap_to a rest + gap_to b rest <= gap_to (a - 1) rest + gap_to (b + 1) rest.
Proof.
  intros Hab. induction rest as [|c rest IH].
  - reflexivity.
  - rewrite !gap_to_cons. lia.
Qed.

Lemma gap_shift_down a b rest :
  b + 2 <= a ->
  gap_to (a - 1) rest + gap_to (b + 1) rest <= gap_to a rest + gap_to b rest.
Proof.
  intros Hab. induction rest as [|c rest IH].
  - reflexivity.
  - rewrite !gap_to_cons. lia.
Qed.

(** What moving one unit from a holder of [a] to a holder of [b] does to
    the sum of pairwise gaps. *)
Lemma pair_gap_transfer ws i j a b :
  i <> j -> ws !! i = Some a -> ws !! j = Some b ->
  let ws' := <[i := a - 1]> (<[j := b + 1]> ws) in
  (a <= b -> pair_gap ws + 2 <= pair_gap ws')
  /\ (a = b + 1 -> pair_gap ws' = pair_gap ws)
  /\ (b + 2 <= a -> pair_gap ws' + 2 <= pair_gap ws).
Proof.
  intros Hij Hi Hj. cbv zeta.
  destruct (two_Permutation ws i j a b Hij Hi Hj) as (rest & Hp & Hp').
  rewrite (pair_gap_Permutation _ _ Hp), (pair_gap_Permutation _ _ (Hp' _ _)).
  cbn [pair_gap]. rewrite !gap_to_cons.
  split; [|split].
  - intros Hab. assert (H := gap_shift_up a b rest Hab). lia.
  - intros ->. replace (b + 1 - 1) with b by lia. lia.
  - intros Hab. assert (H := gap_shift_down a b rest Hab). lia.
Qed.

Lemma Qdiv_inject_lt N N' D :
  0 < D -> N < N' -> (inject_Z N / inject_Z D < inject_Z N' / inject_Z D)%Q.
Proof.
  intros HD HN. unfold Qdiv. apply Qmult_lt_compat_r.
  - apply Qinv_lt_0_compat. change 0%Q with (inject_Z 0). rewrite <- Zlt_Qlt. exact HD.
  - rewrite <- Zlt_Qlt. exact HN.
Qed.

(** The float score depends on the wealth through the integers [W] and
    [S] only. *)
Lemma binary64_score_same n x y :
  weighted_sum n x = weighted_sum n y -> sum x = sum y ->
  Binary64.score_of n x = Binary64.score_of n y.
Proof. intros HW HS. unfold Binary64.score_of. rewrite HW, HS. reflexivity. Qed.

(** X18.  How a gift moves the Gini value, on a well-formed model with
    non-negative wealth, not all zero.  After [give_money] either no
    wealth has moved and [compute_gini] returns the float it returned
    before, or one unit has passed from the caller to a cellmate.  Then the
    integer [W] that [compute_gini] divides has fallen if the caller was no
    richer than the receiver, and the Gini value has not fallen; [W] has
    stayed if the caller was richer by exactly one unit, and
    [compute_gini] returns the same float; [W] has risen if the caller was
    richer by two units or more, and the Gini value has not risen. *)
Theorem give_money_moves_gini (m : MoneyModel) (i : nat) :
  consistent m ->
  all_nonneg m ->
  0 < total_wealth m ->
  let m' := exec (give_money i) m in
  let W := weighted_sum (num_agents m) (sorted (wealths m)) in
  let W' := weighted_sum (num_agents m') (sorted (wealths m')) in
  exists v v',
    eval compute_gini m = Ok v
    /\ eval compute_gini m' = Ok v'
    /\ ((wealths m' = wealths m
         /\ eval Binary64.compute_gini m' = eval Binary64.compute_gini m
         /\ (v' == v)%Q)
        \/ exists other me o,
             other <> i
             /\ agents m !! i = Some me
             /\ agents m !! other = Some o
             /\ wealths m'
                = <[i := wealth me - 1]> (<[other := wealth o + 1]> (wealths m))
             /\ (wealth me <= wealth o -> W' < W /\ (v <= v')%Q)
             /\ (wealth me = wealth o + 1 ->
                 W' = W
                 /\ eval Binary64.compute_gini m' = eval Binary64.compute_gini m
                 /\ (v' == v)%Q)
             /\ (wealth o + 2 <= wealth me -> W < W' /\ (v' <= v)%Q)).
Proof.
  intros Hc Hnn Hpos. cbv zeta.
  assert (Hlen := consistent_length m Hc).
  assert (Hne : wealths m <> []).
  { intros H0. unfold total_wealth in Hpos. rewrite H0 in Hpos.
    change (sum []) with 0 in Hpos. lia. }
  assert (Hn : 0 < num_agents m)
    by (rewrite Hlen; destruct (wealths m); [contradiction|simpl; lia]).
  set (m' := exec (give_money i) m).
  assert (Hnum : num_agents m' = num_agents m) by apply give_money_num_agents.
  assert (Htot : total_wealth m' = total_wealth m) by apply give_money_total.
  rewrite !eval_compute_gini, !binary64_eval, Hnum.
  unfold total_wealth in Hpos, Htot.
  destruct (score_of_pair_gap (num_agents m) (wealths m) Hlen Hne ltac:(lia))
    as (v & Hv & Heq).
  exists v. rewrite Hv.
  destruct (give_money_effect_holds m i) as [Hsame|other me o Hoi Hme Ho _ Hw Hgift];
    fold m' in Hsame || fold m' in Hgift.
  - change (map wealth (agents m')) with (wealths m') in Hsame.
    exists v. split; [reflexivity|]. split; [rewrite Hsame; exact Hv|].
    left. rewrite Hsame. repeat split; reflexivity.
  - change (map wealth (agents m')) with (wealths m') in Hgift.
    change (map wealth (agents m)) with (wealths m) in Hgift.
    assert (Hlen' : num_agents m = Z.of_nat (length (wealths m'))).
    { rewrite Hgift, !length_insert. exact Hlen. }
    assert (Hne' : wealths m' <> []).
    { intros H0. rewrite H0 in Hlen'. simpl in Hlen'. lia. }
    destruct (score_of_pair_gap (num_agents m) (wealths m') Hlen' Hne' ltac:(lia))
      as (v' & Hv' & Heq').
    exists v'. split; [reflexivity|]. split; [exact Hv'|]. right.
    exists other, me, o.
    split; [exact Hoi|]. split; [exact Hme|]. split; [exact Ho|].
    split; [exact Hgift|].
    assert (Hwi : wealths m !! i = Some (wealth me))
      by (unfold wealths; rewrite lookup_map, Hme; reflexivity).
    assert (Hwo : wealths m !! other = Some (wealth o))
      by (unfold wealths; rewrite lookup_map, Ho; reflexivity).
    destruct (pair_gap_transfer (wealths m) i other (wealth me) (wealth o)
                ltac:(congruence) Hwi Hwo) as (Hup & Heqg & Hdown).
    cbv zeta in Hup, Heqg, Hdown. rewrite <- Hgift in Hup, Heqg, Hdown.
    assert (HN := score_numerator_pair_gap (num_agents m) (wealths m) Hlen).
    assert (HN' := score_numerator_pair_gap (num_agents m) (wealths m') Hlen').
    rewrite sum_sorted in HN, HN'. rewrite Htot in HN'.
    rewrite Heq, Heq', Htot.
    assert (HD : 0 < num_agents m * sum (wealths m)) by nia.
    split; [|split].
    + intros Hle. specialize (Hup Hle). split; [lia|].
      apply Qlt_le_weak, Qdiv_inject_lt; [exact HD|lia].
    + intros H1. specialize (Heqg H1). split; [lia|]. split.
      * apply binary64_score_same; [lia|rewrite !sum_sorted; exact Htot].
      * rewrite Heqg. reflexivity.
    + intros Hge. specialize (Hdown Hge). split; [lia|].
      apply Qlt_le_weak, Qdiv_inject_lt; [exact HD|lia].
Qed.

Lemma give_money_moves_gini_witness :
  exists v v',
    eval compute_gini example_model = Ok v
    /\ eval compute_gini (exec (give_money 1) example_model) = Ok v'
    /\ ((wealths (exec (give_money 1) example_model) = wealths example_model
         /\ eval Binary64.compute_gini (exec (give_money 1) example_model)
            = eval Binary64.compute_gini example_model
         /\ (v' == v)%Q)
        \/ exists other me o,
             other <> 1%nat
             /\ agents example_model !! 1%nat = Some me
             /\ agents example_model !! other = Some o
             /\ wealths (exec (give_money 1) example_model)
                = <[1%nat := wealth me - 1]>
                    (<[other := wealth o + 1]> (wealths example_model))
             /\ (wealth me <= wealth o ->
                 weighted_sum (num_agents (exec (give_money 1) example_model))
                   (sorted (wealths (exec (give_money 1) example_model)))
                 < weighted_sum (num_agents example_model)
                     (sorted (wealths example_model))
                 /\ (v <= v')%Q)
             /\ (wealth me = wealth o + 1 ->
                 weighted_sum (num_agents (exec (give_money 1) example_model))
                   (sorted (wealths (exec (give_money 1) example_model)))
                 = weighted_sum (num_agents example_model)
                     (sorted (wealths example_model))
                 /\ eval Binary64.compute_gini (exec (give_money 1) example_model)
                    = eval Binary64.compute_gini example_model
                 /\ (v' == v)%Q)
             /\ (wealth o + 2 <= wealth me ->
                 weighted_sum (num_agents example_model)
                   (sorted (wealths example_model))
                 < weighted_sum (num_agents (exec (give_money 1) example_model))
                     (sorted (wealths (exec (give_money 1) example_model)))
                 /\ (v' <= v)%Q)).
Proof.
  apply (give_money_moves_gini example_model 1).
  - reflexivity.
  - unfold all_nonneg. repeat constructor; simpl; lia.
  - reflexivity.
Defined.
